(** * French-Health-Chatbot: the extractive RAG pipeline, the index loader
      and the offline build, embedded from the Python sources.

    - [PyStr], [OsPath] : Python [str] values as lists of Unicode code
                   points, with the [str] and [os.path] functions the
                   sources call.
    - [Pipeline] : [src/rag_pipeline.py].
    - [App]      : [load_vector_store] of [app.py].
    - [Build]    : the filename clean-up of [build_vector_store.py].

    The modules whose names end in [Facts] hold the properties proved of
    these definitions. *)

From Stdlib Require Import String Ascii.
From Stdlib Require Import List NArith ZArith Bool Lia Arith.
From Equations Require Import Equations.
Import ListNotations.

(* ===================================================================== *)
(** ** Python strings *)
(* ===================================================================== *)

Module PyStr.

(** A Python [str] is a sequence of code points. *)
Definition char := N.
Definition str := list char.

Definition SP : char := 0x20%N.
Definition CR : char := 0x0D%N.
Definition LF : char := 0x0A%N.
Definition DOT : char := 0x2E%N.
Definition SLASH : char := 0x2F%N.

(** Decoder for the UTF-8 bytes of a literal, so that the tables of the
    source can be written as they appear there. *)
Fixpoint utf8 (bs : list N) : str :=
  match bs with
  | [] => []
  | b :: r =>
    if (b <? 0x80)%N then b :: utf8 r
    else if (b <? 0xE0)%N then
      match r with
      | b2 :: r2 => ((b - 0xC0) * 64 + (b2 - 0x80))%N :: utf8 r2
      | _ => []
      end
    else if (b <? 0xF0)%N then
      match r with
      | b2 :: b3 :: r3 =>
        ((b - 0xE0) * 4096 + (b2 - 0x80) * 64 + (b3 - 0x80))%N :: utf8 r3
      | _ => []
      end
    else
      match r with
      | b2 :: b3 :: b4 :: r4 =>
        ((b - 0xF0) * 262144 + (b2 - 0x80) * 4096
         + (b3 - 0x80) * 64 + (b4 - 0x80))%N :: utf8 r4
      | _ => []
      end
  end.

Definition lit (s : string) : str :=
  utf8 (map N_of_ascii (list_ascii_of_string s)).

(** [str.isspace] on one code point: the white space that [str.strip()]
    removes. *)
Definition isspace (c : char) : bool :=
  ((0x09 <=? c) && (c <=? 0x0D) || (0x1C <=? c) && (c <=? 0x20)
   || (c =? 0x85) || (c =? 0xA0) || (c =? 0x1680)
   || (0x2000 <=? c) && (c <=? 0x200A)
   || (c =? 0x2028) || (c =? 0x2029) || (c =? 0x202F)
   || (c =? 0x205F) || (c =? 0x3000))%N.

(** [s.lstrip()], [s.rstrip()], [s.strip()]. *)
Fixpoint lstrip (s : str) : str :=
  match s with
  | [] => []
  | c :: s' => if isspace c then lstrip s' else s
  end.

Fixpoint rstrip (s : str) : str :=
  match s with
  | [] => []
  | c :: s' =>
    match rstrip s' with
    | [] => if isspace c then [] else [c]
    | r => c :: r
    end
  end.

Definition strip (s : str) : str := rstrip (lstrip s).

(** [s.startswith(p)]. *)
Fixpoint startswith (s p : str) : bool :=
  match p, s with
  | [], _ => true
  | _ :: _, [] => false
  | a :: p', b :: s' => (b =? a)%N && startswith s' p'
  end.

(** [p in s]. *)
Fixpoint contains (p s : str) : bool :=
  startswith s p ||
  match s with
  | [] => false
  | _ :: s' => contains p s'
  end.

(** [s.endswith(p)]. *)
Definition endswith (s p : str) : bool := startswith (rev s) (rev p).

(** [s.replace(old, new)]: occurrences are replaced from the left and do
    not overlap; [skip] counts the characters of a matched occurrence that
    are still to be passed over. *)
Fixpoint replace_from (old new : str) (skip : nat) (s : str) : str :=
  match s with
  | [] => []
  | c :: s' =>
    match skip with
    | S k => replace_from old new k s'
    | O =>
      if startswith s old
      then new ++ replace_from old new (length old - 1) s'
      else c :: replace_from old new 0 s'
    end
  end.

Definition replace (old new s : str) : str :=
  match old with
  | [] => new ++ flat_map (fun c => c :: new) s
  | _ => replace_from old new 0 s
  end.

(** [s.split(sep)] for a separator of one character. *)
Fixpoint split (sep : char) (s : str) : list str :=
  match s with
  | [] => [[]]
  | c :: s' =>
    if (c =? sep)%N then [] :: split sep s'
    else
      match split sep s' with
      | [] => [[c]]
      | p :: ps => (c :: p) :: ps
      end
  end.

(** [sep.join(parts)]. *)
Fixpoint join (sep : str) (parts : list str) : str :=
  match parts with
  | [] => []
  | [p] => p
  | p :: ps => p ++ sep ++ join sep ps
  end.

(** [l[:n]] for a Python integer [n]. *)
Definition slice_to {A} (n : Z) (l : list A) : list A :=
  if (0 <=? n)%Z then firstn (Z.to_nat n) l
  else firstn (length l - Z.to_nat (- n)) l.

(** [l[i:]] for a non-negative index. *)
Definition slice_from {A} (i : nat) (l : list A) : list A := skipn i l.

(** [s.rfind(c)] for one character: the last index of [c], or [-1]. *)
Fixpoint rfind (c : char) (s : str) : Z :=
  match s with
  | [] => (-1)%Z
  | x :: s' =>
    let r := rfind c s' in
    if (0 <=? r)%Z then (r + 1)%Z
    else if (x =? c)%N then 0%Z else (-1)%Z
  end.

End PyStr.

(** [os.path.basename] (POSIX flavour): what follows the last slash. *)
Module OsPath.
Import PyStr.

Definition basename (p : str) : str :=
  let i := (rfind SLASH p + 1)%Z in
  slice_from (Z.to_nat i) p.

End OsPath.

(* ===================================================================== *)
(** ** src/rag_pipeline.py *)
(* ===================================================================== *)

Module Pipeline.
Import PyStr.

(** *** Cleaning tables *)

Definition WEIRD_CHARS : list str :=
  [ [0xE924]; [0xE928]; [0xE91F]; [0xE91E]; [0xE931]; [0xE910]; [0xE918];
    [0xE92E]; [0xE927]; [0xE92B]; [0xE902]; [0xE906]; [0xE92C] ]%N.

Definition UNWANTED_PATTERNS : list str :=
  [ lit "Lire aussi";
    lit "Cet article vous a-t-il été utile";
    lit "Assuré Entreprise Professionnel de santé";
    lit "Sources" ++ [0xE924]%N;
    lit "Sites utiles";
    lit "Oui Non";
    lit "Copier le lien" ].

Definition BIBLIO_PATTERNS : list str :=
  [ lit "santé publique france";
    lit "consulté le";
    lit "site internet";
    lit "saint-maurice";
    lit "document de référence";
    lit "pdf ," ].

Definition MONTHS : list str :=
  [ lit "janvier"; lit "février"; lit "fevrier"; lit "mars"; lit "avril";
    lit "mai"; lit "juin"; lit "juillet"; lit "août"; lit "aout";
    lit "septembre"; lit "octobre"; lit "novembre"; lit "décembre";
    lit "decembre" ].

(** *** _clean_text *)

Definition DSP : str := [SP; SP].

(** What one [text.replace("  ", " ")] computes, scanning two characters
    at a time. *)
Fixpoint pairs_to_one (s : str) : str :=
  match s with
  | a :: (b :: t) as s' =>
    if ((a =? SP) && (b =? SP))%N then SP :: pairs_to_one t
    else a :: pairs_to_one s'
  | _ => s
  end.

Lemma replace_DSP_step a s :
  replace_from DSP [SP] 0 (a :: s) =
  match s with
  | b :: t => if ((a =? SP) && (b =? SP))%N
              then SP :: replace_from DSP [SP] 0 t
              else a :: replace_from DSP [SP] 0 s
  | [] => [a]
  end.
Proof.
  destruct s as [|b t].
  - cbn. rewrite andb_false_r. reflexivity.
  - change (replace_from DSP [SP] 0 (a :: b :: t))
      with (if startswith (a :: b :: t) DSP
            then SP :: replace_from DSP [SP] 0 t
            else a :: replace_from DSP [SP] 0 (b :: t)).
    replace (startswith (a :: b :: t) DSP) with ((a =? SP) && (b =? SP))%N;
      [reflexivity|].
    cbn [startswith DSP]. destruct t; rewrite andb_true_r; reflexivity.
Qed.

Lemma replace_DSP s : replace DSP [SP] s = pairs_to_one s.
Proof.
  unfold replace, DSP at 1.
  enough (H : forall n s, length s <= n ->
                replace_from DSP [SP] 0 s = pairs_to_one s)
    by (apply (H (length s)); lia).
  clear s. induction n as [|n IH]; intros s Hn.
  - destruct s; [reflexivity | simpl in Hn; lia].
  - destruct s as [|a [|b t]]; [reflexivity | apply replace_DSP_step |].
    rewrite replace_DSP_step. cbn [pairs_to_one].
    destruct ((a =? SP) && (b =? SP))%N.
    + rewrite IH; [reflexivity | simpl in *; lia].
    + rewrite IH; [reflexivity | simpl in *; lia].
Qed.

Lemma pairs_to_one_shrinks s :
  contains DSP s = true -> length (pairs_to_one s) < length s.
Proof.
  enough (H : forall n s, length s <= n ->
     length (pairs_to_one s) <= length s /\
     (contains DSP s = true -> length (pairs_to_one s) < length s))
    by (apply (H (length s)); lia).
  clear s. induction n as [|n IH]; intros s Hn.
  - destruct s; [|simpl in Hn; lia]. split; [simpl; lia | discriminate].
  - destruct s as [|a [|b t]].
    + split; [simpl; lia | discriminate].
    + split; [simpl; lia|]. cbn. rewrite !andb_false_r. discriminate.
    + cbn [pairs_to_one]. simpl in Hn.
      destruct ((a =? SP) && (b =? SP))%N eqn:E.
      * destruct (IH t) as [Hle _]; [lia|]. simpl. split; lia.
      * destruct (IH (b :: t)) as [Hle Hlt]; [simpl; lia|]. split.
        -- simpl in *. lia.
        -- intros Hc. cbn [contains startswith DSP] in Hc.
           replace (startswith t []) with true in Hc by (destruct t; reflexivity).
           rewrite andb_true_r, E in Hc. cbn [orb] in Hc.
           specialize (Hlt Hc). simpl in *. lia.
Qed.

(** A value together with the fact that it is the value of the test. *)
Definition inspect {A : Type} (x : A) : { y : A | x = y } :=
  exist _ x eq_refl.

(** The loop [while "  " in text: text = text.replace("  ", " ")]; every
    round shortens the text, so it ends. *)
Equations? collapse_loop (text : str) : str by wf (length text) lt :=
  collapse_loop text with inspect (contains DSP text) := {
    | exist _ true H => collapse_loop (replace DSP [SP] text)
    | exist _ false _ => text }.
Proof.
  change (replace_from DSP [SP] 0 text) with (replace DSP [SP] text).
  rewrite replace_DSP. apply pairs_to_one_shrinks. exact H.
Qed.

Definition _clean_text (text : str) : str :=
  match text with
  | [] => []
  | _ =>
    let text := replace [LF] [SP] (replace [CR] [SP] text) in
    let text := fold_left (fun t ch => replace ch [SP] t) WEIRD_CHARS text in
    let text := collapse_loop text in
    strip text
  end.


(** *** _split_sentences *)

Definition _split_sentences (text : str) : list str :=
  let text := _clean_text text in
  let parts := split DOT text in
  fold_left
    (fun sentences p =>
       let s := strip p in
       if 0 <? length s then sentences ++ [s] else sentences)
    parts [].

(** *** _merge_snippets *)

(** The [for] loop of [_merge_snippets] on the state [(merged,
    current_len)]: an empty snippet is passed over ([continue]), the first
    snippet that does not fit ends the loop ([break]). *)
Fixpoint merge_loop (max_chars : Z) (snippets : list str)
         (merged : list str) (current_len : Z) : list str :=
  match snippets with
  | [] => merged
  | s :: rest =>
    let s := strip s in
    match s with
    | [] => merge_loop max_chars rest merged current_len
    | _ =>
      if (current_len + Z.of_nat (length s) + 1 >? max_chars)%Z
      then merged
      else merge_loop max_chars rest (merged ++ [s])
                      (current_len + Z.of_nat (length s) + 1)%Z
    end
  end.

Definition _merge_snippets (snippets : list str) (max_chars : Z) : str :=
  let merged := merge_loop max_chars snippets [] 0%Z in
  strip (join [SP] merged).

Section WithCaseMapping.

(** [str.lower] is Python's Unicode case mapping; the pipeline is taken
    over any such function. *)
Variable lower : str -> str.

(** *** _filter_sentences *)

Definition _filter_sentences (sentences : list str) : list str :=
  fold_left
    (fun kept s =>
       let s_clean := strip s in
       let s_lower := lower s_clean in
       if length s_clean <? 30 then kept
       else if existsb (fun p => contains (lower p) s_lower)
                       UNWANTED_PATTERNS then kept
       else if existsb (fun p => contains p s_lower) BIBLIO_PATTERNS
            then kept
       else if existsb (fun m => startswith s_lower m) MONTHS then kept
       else kept ++ [s_clean])
    sentences [].

(** *** _summarize_snippet *)

Definition _summarize_snippet (text : str) (max_sentences : Z) : str :=
  let sentences := _split_sentences text in
  let sentences := _filter_sentences sentences in
  match sentences with
  | [] => []
  | _ =>
    let kept := slice_to max_sentences sentences in
    let summary := strip (join (lit ". ") kept) in
    if negb (endswith summary (lit ".")) then summary ++ lit "."
    else summary
  end.

(** *** _get_topic_keywords *)

Definition _get_topic_keywords (query : str) : list str :=
  let q := lower query in
  if contains (lit "otite") q then [lit "otite"]
  else if contains (lit "rhinopharyng") q then [lit "rhinopharyngite"]
  else if contains (lit "angine") q then [lit "angine"]
  else if contains (lit "fièvre") q || contains (lit "fievre") q
       then [lit "fievre"]
  else if contains (lit "gastro") q then [lit "gastro"]
  else if contains (lit "bronchiolite") q then [lit "bronchiolite"]
  else if contains (lit "hypertension") q || contains (lit "tension") q
       then [lit "hypertension"]
  else if contains (lit "diabète") q || contains (lit "diabete") q
       then [lit "diabete"]
  else if contains (lit "migraine") q then [lit "migraine"]
  else if contains (lit "grippe") q then [lit "grippe"]
  else if contains (lit "covid") q then [lit "covid"]
  else if contains (lit "asthme") q then [lit "asthme"]
  else if contains (lit "allerg") q then [lit "allergie"; lit "allergies"]
  else if contains (lit "cholestérol") q || contains (lit "cholesterol") q
       then [lit "cholesterol"]
  else [].

(** *** Retrieval results *)

(** A result of the retriever is a dict; the pipeline reads four of its
    keys with [r.get(key, default)], so a key may be missing. *)
Variable Score : Type.
Variable zero_score : Score.

Record QueryResult : Type := mkQueryResult {
  qr_filename : option str;
  qr_score : option Score;
  qr_chunk_index : option Z;
  qr_text : option str
}.

(** [r.get(key, default)]. *)
Definition get {A} (field : option A) (default : A) : A :=
  match field with
  | Some v => v
  | None => default
  end.

(** *** _filter_results_by_topic *)

Definition _filter_results_by_topic (results : list QueryResult)
           (query : str) : list QueryResult :=
  let topic_keywords := _get_topic_keywords query in
  match topic_keywords with
  | [] => results
  | _ =>
    let filtered :=
      fold_left
        (fun filtered r =>
           let filename := get (qr_filename r) [] in
           let filename_lower := lower filename in
           if existsb (fun kw => contains kw filename_lower) topic_keywords
           then filtered ++ [r] else filtered)
        results [] in
    match filtered with
    | [] => results
    | _ => filtered
    end
  end.

(** *** answer_question_extractive *)

Record Source : Type := mkSource {
  src_filename : str;
  src_score : Score;
  src_chunk_index : Z;
  src_snippet : str
}.

Record AnswerResult : Type := mkAnswerResult {
  question : str;
  answer : str;
  sources : list Source
}.

(** One round of the loop over the retained results, on the state
    [(snippets_for_answer, sources_list)]. *)
Definition process_result (max_chunk_chars : Z)
           (st : list str * list Source) (r : QueryResult)
  : list str * list Source :=
  let '(snippets_for_answer, sources_list) := st in
  let raw_text := slice_to max_chunk_chars (get (qr_text r) []) in
  let summarized := _summarize_snippet raw_text 3 in
  let summarized :=
    match summarized with
    | [] => _clean_text raw_text
    | _ => summarized
    end in
  let filename :=
    OsPath.basename (get (qr_filename r) (lit "document inconnu")) in
  let snippets_for_answer :=
    match summarized with
    | [] => snippets_for_answer
    | _ => snippets_for_answer ++ [summarized]
    end in
  (snippets_for_answer,
   sources_list ++
     [ {| src_filename := filename;
          src_score := get (qr_score r) zero_score;
          src_chunk_index := get (qr_chunk_index r) (-1)%Z;
          src_snippet := summarized |} ]).

Definition NO_RESULT_ANSWER : str :=
  lit "Je n’ai trouvé aucune information pertinente sur ce sujet dans les documents chargés. "
  ++ lit "Merci de vérifier que les brochures PDF contiennent bien des informations sur cette question.".

Definition NOT_REFORMULATED : str :=
  lit "Les documents contiennent des informations, mais elles n’ont pas pu être "
  ++ lit "reformulées correctement. Merci de reformuler votre question ou de consulter "
  ++ lit "un professionnel de santé.".

(** The retriever ([src/retriever.py]) is called as a black box on the
    query, the vectors, the metadata and [k]. *)
Variables Embeddings Metadata : Type.
Variable retrieve_top_k :
  str -> Embeddings -> Metadata -> Z -> list QueryResult.

Definition answer_question_extractive (query : str)
           (doc_embeddings : Embeddings) (metadata : Metadata)
           (k : Z) (max_chunk_chars : Z) : AnswerResult :=
  let results := retrieve_top_k query doc_embeddings metadata k in
  match results with
  | [] =>
    {| question := query; answer := NO_RESULT_ANSWER; sources := [] |}
  | _ =>
    let results := _filter_results_by_topic results query in
    let '(snippets_for_answer, sources_list) :=
      fold_left (process_result max_chunk_chars) results ([], []) in
    let combined_text := _merge_snippets snippets_for_answer 900 in
    let combined_text :=
      match combined_text with
      | [] => NOT_REFORMULATED
      | _ => combined_text
      end in
    let answer_text :=
      lit "Voici une réponse basée sur les brochures disponibles concernant votre question :"
      ++ [LF; LF] ++ combined_text ++ [LF; LF]
      ++ lit "Ce résumé est directement élaboré à partir des brochures. "
      ++ lit "Il fournit une information générale et ne remplace **en aucun cas** l’avis d’un professionnel de santé." in
    {| question := query; answer := answer_text; sources := sources_list |}
  end.

End WithCaseMapping.

Arguments mkQueryResult {Score} _ _ _ _.
Arguments qr_filename {Score} _.
Arguments qr_score {Score} _.
Arguments qr_chunk_index {Score} _.
Arguments qr_text {Score} _.
Arguments mkSource {Score} _ _ _ _.
Arguments src_filename {Score} _.
Arguments src_score {Score} _.
Arguments src_chunk_index {Score} _.
Arguments src_snippet {Score} _.
Arguments mkAnswerResult {Score} _ _ _.
Arguments question {Score} _.
Arguments answer {Score} _.
Arguments sources {Score} _.
Arguments _filter_results_by_topic lower {Score} results query.
Arguments process_result lower {Score} zero_score max_chunk_chars st r.
Arguments answer_question_extractive lower {Score} zero_score
  {Embeddings Metadata} retrieve_top_k query doc_embeddings metadata k
  max_chunk_chars.

End Pipeline.

(* ===================================================================== *)
(** ** app.py: loading the persisted index *)
(* ===================================================================== *)

Module App.
Import PyStr.

Section Loader.

(** A vector row and a metadata record, as stored in the two files. *)
Variables Row Meta : Type.

(** What the loader can find at a path: nothing, a file whose reading or
    parsing raises (with the exception text), or a file that loads. *)
Inductive File (A : Type) : Type :=
| Missing
| Unreadable (e : str)
| Loads (content : A).
Arguments Missing {A}.
Arguments Unreadable {A} e.
Arguments Loads {A} content.

Record FileSystem : Type := mkFileSystem {
  EMB_PATH : File (list Row);
  META_PATH : File (list Meta)
}.

(** [os.path.exists]. *)
Definition exists_ {A} (f : File A) : bool :=
  match f with
  | Missing => false
  | _ => true
  end.

(** The three keys of [st.session_state] the loader writes, and the
    messages given to [st.error]. *)
Record SessionState : Type := mkSessionState {
  embeddings : option (list Row);
  metadata : option (list Meta);
  index_ready : bool;
  errors : list str
}.

Definition st_error (msg : str) (st : SessionState) : SessionState :=
  {| embeddings := embeddings st;
     metadata := metadata st;
     index_ready := index_ready st;
     errors := errors st ++ [msg] |}.

Definition NOT_FOUND : str :=
  lit "Vector store introuvable." ++ [LF; LF]
  ++ lit "Veuillez exécuter `build_vector_store.py` en local pour pré-calculer les embeddings "
  ++ lit "et committer le dossier `vector_store/` dans le dépôt.".

Definition LOAD_ERROR (e : str) : str :=
  lit "Erreur lors du chargement du vector store : " ++ e.

(** The [try] block: [np.load] first, then [json.load]; the first
    exception leaves the block. *)
Definition try_load (fs : FileSystem) : str + (list Row * list Meta) :=
  match EMB_PATH fs with
  | Loads emb =>
    match META_PATH fs with
    | Loads meta => inr (emb, meta)
    | Unreadable e => inl e
    | Missing => inl (lit "FileNotFoundError")
    end
  | Unreadable e => inl e
  | Missing => inl (lit "FileNotFoundError")
  end.

Definition load_vector_store (fs : FileSystem) (st : SessionState)
  : bool * SessionState :=
  if negb (exists_ (EMB_PATH fs)) || negb (exists_ (META_PATH fs))
  then (false, st_error NOT_FOUND st)
  else
    match try_load fs with
    | inl e => (false, st_error (LOAD_ERROR e) st)
    | inr (emb, meta) =>
      (true,
       {| embeddings := Some emb;
          metadata := Some meta;
          index_ready := true;
          errors := errors st |})
    end.

(** The session state at start-up. *)
Definition initial_state : SessionState :=
  {| embeddings := None; metadata := None; index_ready := false;
     errors := [] |}.

End Loader.

Arguments Missing {A}.
Arguments Unreadable {A} e.
Arguments Loads {A} content.
Arguments mkFileSystem {Row Meta} _ _.
Arguments EMB_PATH {Row Meta} _.
Arguments META_PATH {Row Meta} _.
Arguments mkSessionState {Row Meta} _ _ _ _.
Arguments embeddings {Row Meta} _.
Arguments metadata {Row Meta} _.
Arguments index_ready {Row Meta} _.
Arguments errors {Row Meta} _.
Arguments st_error {Row Meta} msg st.
Arguments try_load {Row Meta} fs.
Arguments load_vector_store {Row Meta} fs st.
Arguments initial_state {Row Meta}.

End App.

(* ===================================================================== *)
(** ** build_vector_store.py: step 5, the filename clean-up *)
(* ===================================================================== *)

Module Build.
Import PyStr.

Section CleanFilenames.

(** The vectors are not touched by this step; [Chunk] stands for the other
    values of a record. *)
Variable Chunk : Type.

(** A metadata record is a dict; ["filename"] may be missing. *)
Record MetaRecord : Type := mkMetaRecord {
  filename : option str;
  rest : Chunk
}.

(** [metadata] is a list of references to dicts that the loop updates in
    place: a store of records and the list of their addresses. *)
Definition addr := nat.
Definition Store := addr -> MetaRecord.

Definition store_set (h : Store) (a : addr) (m : MetaRecord) : Store :=
  fun b => if Nat.eqb b a then m else h b.

(** One round: [if "filename" in m and m["filename"]:
    m["filename"] = os.path.basename(m["filename"])]. *)
Definition clean_one (h : Store) (a : addr) : Store :=
  match filename (h a) with
  | Some (c :: f) =>
    store_set h a {| filename := Some (OsPath.basename (c :: f));
                     rest := rest (h a) |}
  | _ => h
  end.

Definition clean_filenames (h : Store) (metadata : list addr) : Store :=
  fold_left clean_one metadata h.

(** What [json.dump(metadata, ...)] writes: the records, in list order. *)
Definition persisted (h : Store) (metadata : list addr) : list MetaRecord :=
  map h metadata.

Definition main_step5 (h : Store) (metadata : list addr) : list MetaRecord :=
  persisted (clean_filenames h metadata) metadata.

End CleanFilenames.

Arguments mkMetaRecord {Chunk} _ _.
Arguments filename {Chunk} _.
Arguments rest {Chunk} _.
Arguments store_set {Chunk} h a m.
Arguments clean_one {Chunk} h a.
Arguments clean_filenames {Chunk} h metadata.
Arguments persisted {Chunk} h metadata.
Arguments main_step5 {Chunk} h metadata.

End Build.

(* ===================================================================== *)
(** ** Facts about the string operations *)
(* ===================================================================== *)

Module PyStrFacts.
Import PyStr.

Lemma startswith_nil s : startswith s [] = true.
Proof. destruct s; reflexivity. Qed.

Lemma startswith_app s p : startswith (p ++ s) p = true.
Proof.
  induction p as [|a p IH]; simpl; [apply startswith_nil|].
  rewrite N.eqb_refl. exact IH.
Qed.

(** Replacing a one-character string by another is a character map. *)
Lemma replace_char c d s :
  replace [c] [d] s = map (fun x => if (x =? c)%N then d else x) s.
Proof.
  unfold replace. induction s as [|x s IH]; [reflexivity|].
  cbn [replace_from startswith length Nat.sub app map].
  rewrite startswith_nil, andb_true_r, IH.
  destruct (x =? c)%N; reflexivity.
Qed.

(** *** strip *)

Lemma lstrip_length s : length (lstrip s) <= length s.
Proof.
  induction s as [|c s IH]; simpl; [lia|].
  destruct (isspace c); simpl; lia.
Qed.

Lemma lstrip_cons c s : lstrip s = c :: s -> False.
Proof.
  intros H. pose proof (lstrip_length s) as L. rewrite H in L.
  simpl in L. lia.
Qed.

Lemma lstrip_head s c t : lstrip s = c :: t -> isspace c = false.
Proof.
  induction s as [|x s IH]; simpl; [discriminate|].
  destruct (isspace x) eqn:E; [exact IH|].
  intros H; injection H as -> _. exact E.
Qed.

Lemma lstrip_fixed c s : isspace c = false -> lstrip (c :: s) = c :: s.
Proof. intros H; simpl; rewrite H; reflexivity. Qed.

Lemma lstrip_idem s : lstrip (lstrip s) = lstrip s.
Proof.
  destruct (lstrip s) as [|c t] eqn:E; [reflexivity|].
  apply lstrip_fixed. exact (lstrip_head _ _ _ E).
Qed.

Lemma rstrip_cons c s :
  rstrip (c :: s) =
  match rstrip s with
  | [] => if isspace c then [] else [c]
  | r => c :: r
  end.
Proof. reflexivity. Qed.

Lemma rstrip_head s b r : rstrip s = b :: r -> exists t, s = b :: t.
Proof.
  destruct s as [|c s]; [discriminate|]. rewrite rstrip_cons.
  destruct (rstrip s); [destruct (isspace c)|]; intros H;
    try discriminate; injection H as -> _; eauto.
Qed.

Lemma rstrip_idem s : rstrip (rstrip s) = rstrip s.
Proof.
  induction s as [|c s IH]; [reflexivity|]. rewrite rstrip_cons.
  destruct (rstrip s) as [|b r] eqn:E.
  - destruct (isspace c) eqn:Ec; [reflexivity|].
    simpl. rewrite Ec. reflexivity.
  - rewrite rstrip_cons, IH. reflexivity.
Qed.

Lemma rstrip_keeps_head c s :
  isspace c = false -> exists r, rstrip (c :: s) = c :: r.
Proof.
  intros H. rewrite rstrip_cons.
  destruct (rstrip s); [rewrite H|]; eauto.
Qed.

Lemma strip_idem s : strip (strip s) = strip s.
Proof.
  unfold strip. destruct (lstrip s) as [|c t] eqn:E; [reflexivity|].
  destruct (rstrip_keeps_head c t (lstrip_head _ _ _ E)) as [r Hr].
  rewrite Hr, lstrip_fixed by exact (lstrip_head _ _ _ E).
  rewrite <- Hr. apply rstrip_idem.
Qed.

Lemma lstrip_incl s : incl (lstrip s) s.
Proof.
  induction s as [|c s IH]; simpl; [apply incl_refl|].
  destruct (isspace c); [apply incl_tl; exact IH | apply incl_refl].
Qed.

Lemma rstrip_incl s : incl (rstrip s) s.
Proof.
  induction s as [|c s IH]; [apply incl_refl|]. rewrite rstrip_cons.
  destruct (rstrip s) as [|b r].
  - destruct (isspace c); [apply incl_nil_l|].
    intros x [->|[]]; left; reflexivity.
  - intros x [->|Hx]; [left; reflexivity | right; apply IH; exact Hx].
Qed.

Lemma strip_incl s : incl (strip s) s.
Proof.
  unfold strip. eapply incl_tran; [apply rstrip_incl | apply lstrip_incl].
Qed.

(** A stripped string that is not empty begins and ends with characters
    that are not white space. *)
Lemma rstrip_last s : rstrip s = [] \/ exists r c, rstrip s = r ++ [c] /\ isspace c = false.
Proof.
  induction s as [|x s IH]; [left; reflexivity|]. rewrite rstrip_cons.
  destruct IH as [->|(r & c & -> & Hc)].
  - destruct (isspace x) eqn:E; [left; reflexivity|].
    right. exists [], x. split; [reflexivity | exact E].
  - right. exists (x :: r), c. split; [|exact Hc].
    destruct r; reflexivity.
Qed.

Lemma rstrip_fixed r c : isspace c = false -> rstrip (r ++ [c]) = r ++ [c].
Proof.
  intros H. induction r as [|x r IH].
  - simpl. rewrite H. reflexivity.
  - change ((x :: r) ++ [c]) with (x :: (r ++ [c])).
    rewrite rstrip_cons, IH. destruct r; reflexivity.
Qed.

Lemma strip_fixed c r d :
  isspace c = false -> isspace d = false ->
  strip (c :: r ++ [d]) = c :: r ++ [d].
Proof.
  intros Hc Hd. unfold strip. rewrite lstrip_fixed by exact Hc.
  apply (rstrip_fixed (c :: r) d Hd).
Qed.

Lemma strip_single c : isspace c = false -> strip [c] = [c].
Proof. intros H. unfold strip. simpl. rewrite H. simpl. rewrite H. reflexivity. Qed.

(** The shape of a stripped string. *)
Inductive Stripped : str -> Prop :=
| Stripped_nil : Stripped []
| Stripped_one c : isspace c = false -> Stripped [c]
| Stripped_more c r d :
    isspace c = false -> isspace d = false -> Stripped (c :: r ++ [d]).

Lemma Stripped_strip s : Stripped (strip s).
Proof.
  unfold strip. destruct (lstrip s) as [|c t] eqn:E; [constructor|].
  pose proof (lstrip_head _ _ _ E) as Hc.
  destruct (rstrip_keeps_head c t Hc) as [r Hr].
  destruct (rstrip_last (c :: t)) as [H|(r' & d & H & Hd)];
    [rewrite Hr in H; discriminate|].
  rewrite H. destruct r' as [|x r'].
  - simpl. rewrite Hr in H. injection H as <- _. constructor. exact Hc.
  - rewrite Hr in H. simpl in H. injection H as <- _.
    simpl. constructor; assumption.
Qed.

Lemma Stripped_fixed s : Stripped s -> strip s = s.
Proof.
  intros [|c H|c r d Hc Hd];
    [reflexivity | apply strip_single; exact H | apply strip_fixed; assumption].
Qed.

End PyStrFacts.

(* ===================================================================== *)
(** ** Text normalisation: [_clean_text] *)
(* ===================================================================== *)

Module CleanFacts.
Import PyStr PyStrFacts Pipeline.

(** The denylist, character by character. *)
Definition denylist : list char := concat WEIRD_CHARS.

Definition denylisted (c : char) : bool := existsb (N.eqb c) denylist.

(** Carriage return, newline and denylisted characters become a space. *)
Definition to_space (c : char) : char :=
  if ((c =? CR) || (c =? LF) || denylisted c)%N then SP else c.

Definition head_is_space (s : str) : bool :=
  match s with
  | b :: _ => (b =? SP)%N
  | [] => false
  end.

(** One pass that keeps one space of every run of spaces. *)
Fixpoint squeeze (s : str) : str :=
  match s with
  | [] => []
  | c :: s' =>
    if (c =? SP)%N && head_is_space s' then squeeze s' else c :: squeeze s'
  end.

(** No two spaces side by side. *)
Fixpoint single_spaced (s : str) : bool :=
  match s with
  | [] => true
  | c :: s' => negb ((c =? SP)%N && head_is_space s') && single_spaced s'
  end.

(** Modelled after the words of the specification of [clean]: denylisted
    characters are taken out of the text. *)
Definition clean_as_specified (text : str) : str :=
  let text := map (fun c => if ((c =? CR) || (c =? LF))%N then SP else c) text in
  let text := filter (fun c => negb (denylisted c)) text in
  strip (squeeze text).

(** *** The replacement rounds are one character map *)

Lemma fold_replace_chars chars t :
  fold_left (fun t ch => replace ch [SP] t) (map (fun c => [c]) chars) t =
  map (fun c => if existsb (N.eqb c) chars then SP else c) t.
Proof.
  revert t. induction chars as [|d chars IH]; intros t;
    cbn [fold_left map existsb].
  - symmetry. apply map_id.
  - rewrite IH, replace_char, map_map. apply map_ext. intros x.
    destruct (x =? d)%N eqn:E; simpl; [|reflexivity].
    destruct (existsb (N.eqb SP) chars); reflexivity.
Qed.

Lemma WEIRD_CHARS_singletons :
  WEIRD_CHARS = map (fun c => [c]) denylist.
Proof. reflexivity. Qed.

Lemma replacements_to_space text :
  fold_left (fun t ch => replace ch [SP] t) WEIRD_CHARS
            (replace [LF] [SP] (replace [CR] [SP] text)) =
  map to_space text.
Proof.
  rewrite WEIRD_CHARS_singletons, fold_replace_chars, !replace_char, !map_map.
  apply map_ext. intros c. unfold to_space. fold (denylisted c).
  destruct (c =? CR)%N eqn:E1; simpl.
  - reflexivity.
  - destruct (c =? LF)%N eqn:E2; simpl; [reflexivity|].
    change (existsb (N.eqb c) denylist) with (denylisted c). reflexivity.
Qed.

(** *** The loop computes [squeeze] *)

Lemma head_pairs_to_one s : head_is_space (pairs_to_one s) = head_is_space s.
Proof.
  destruct s as [|a [|b t]]; try reflexivity. cbn [pairs_to_one].
  destruct (a =? SP)%N eqn:Ea, (b =? SP)%N; simpl; try rewrite Ea; reflexivity.
Qed.

Lemma pairs_to_one_cons a b t :
  pairs_to_one (a :: b :: t) =
  if ((a =? SP) && (b =? SP))%N then SP :: pairs_to_one t
  else a :: pairs_to_one (b :: t).
Proof. reflexivity. Qed.

Lemma squeeze_cons c s :
  squeeze (c :: s) =
  if (c =? SP)%N && head_is_space s then squeeze s else c :: squeeze s.
Proof. reflexivity. Qed.

Lemma squeeze_pairs_to_one s : squeeze (pairs_to_one s) = squeeze s.
Proof.
  enough (H : forall n s, length s <= n -> squeeze (pairs_to_one s) = squeeze s)
    by (apply (H (length s)); lia).
  clear s. induction n as [|n IH]; intros s Hn.
  - destruct s; [reflexivity | simpl in Hn; lia].
  - destruct s as [|a [|b t]]; try reflexivity.
    rewrite pairs_to_one_cons. simpl in Hn.
    destruct ((a =? SP) && (b =? SP))%N eqn:E.
    + (* two spaces: one is dropped on both sides *)
      apply andb_true_iff in E as [Ea Eb].
      apply N.eqb_eq in Ea, Eb. subst a b.
      rewrite !squeeze_cons, head_pairs_to_one, IH by lia.
      cbn [head_is_space]. rewrite !N.eqb_refl. reflexivity.
    + rewrite (squeeze_cons a (pairs_to_one (b :: t))),
        (squeeze_cons a (b :: t)), head_pairs_to_one, IH by (simpl; lia).
      reflexivity.
Qed.

Lemma contains_DSP_cons c s :
  contains DSP (c :: s) = ((c =? SP)%N && head_is_space s) || contains DSP s.
Proof.
  change (contains DSP (c :: s))
    with (((c =? SP)%N && startswith s [SP]) || contains DSP s).
  f_equal. f_equal. destruct s as [|b t]; [reflexivity|].
  change (startswith (b :: t) [SP]) with ((b =? SP)%N && startswith t []).
  rewrite startswith_nil, andb_true_r. reflexivity.
Qed.

Lemma single_spaced_iff s : single_spaced s = negb (contains DSP s).
Proof.
  induction s as [|c s IH]; [reflexivity|].
  rewrite contains_DSP_cons. cbn [single_spaced]. rewrite IH, negb_orb.
  reflexivity.
Qed.

Lemma squeeze_fixed s : single_spaced s = true -> squeeze s = s.
Proof.
  induction s as [|c s IH]; [reflexivity|]. cbn [single_spaced squeeze].
  intros H. apply andb_true_iff in H as [H1 H2].
  apply negb_true_iff in H1. rewrite H1, IH by exact H2. reflexivity.
Qed.

Lemma head_squeeze s : head_is_space (squeeze s) = head_is_space s.
Proof.
  induction s as [|c s IH]; [reflexivity|]. rewrite squeeze_cons.
  destruct ((c =? SP)%N && head_is_space s) eqn:E; [|reflexivity].
  apply andb_true_iff in E as [Ec Eh]. rewrite IH, Eh.
  symmetry. exact Ec.
Qed.

Lemma single_spaced_squeeze s : single_spaced (squeeze s) = true.
Proof.
  induction s as [|c s IH]; [reflexivity|]. cbn [squeeze].
  destruct ((c =? SP)%N && head_is_space s) eqn:E; [exact IH|].
  cbn [single_spaced]. rewrite head_squeeze, E, IH. reflexivity.
Qed.

Lemma collapse_loop_squeeze text : collapse_loop text = squeeze text.
Proof.
  funelim (collapse_loop text).
  - change (replace_from DSP [SP] 0 text) with (replace DSP [SP] text) in *.
    match goal with IH : collapse_loop _ = squeeze _ |- _ => rewrite IH end.
    rewrite replace_DSP. apply squeeze_pairs_to_one.
  - symmetry. apply squeeze_fixed. rewrite single_spaced_iff.
    match goal with E : contains DSP _ = false |- _ => rewrite E end.
    reflexivity.
Qed.

(** The loop ends with no two spaces side by side. *)
Lemma collapse_loop_exit text : contains DSP (collapse_loop text) = false.
Proof.
  rewrite collapse_loop_squeeze.
  pose proof (single_spaced_squeeze text) as H.
  rewrite single_spaced_iff in H. apply negb_true_iff in H. exact H.
Qed.

(** *** What [_clean_text] computes *)

Lemma clean_text_one_pass text :
  _clean_text text = strip (squeeze (map to_space text)).
Proof.
  destruct text as [|c text]; [reflexivity|].
  unfold _clean_text.
  rewrite replacements_to_space, collapse_loop_squeeze. reflexivity.
Qed.

Lemma to_space_idem c : to_space (to_space c) = to_space c.
Proof.
  unfold to_space at 2 3.
  destruct ((c =? CR) || (c =? LF) || denylisted c)%N eqn:E;
    [reflexivity|].
  unfold to_space. rewrite E. reflexivity.
Qed.

Lemma squeeze_incl s : incl (squeeze s) s.
Proof.
  induction s as [|c s IH]; [apply incl_refl|]. rewrite squeeze_cons.
  destruct ((c =? SP)%N && head_is_space s).
  - apply incl_tl. exact IH.
  - intros x [->|Hx]; [left; reflexivity | right; apply IH; exact Hx].
Qed.

Lemma single_spaced_lstrip s :
  single_spaced s = true -> single_spaced (lstrip s) = true.
Proof.
  induction s as [|c s IH]; [reflexivity|]. intros H.
  cbn [lstrip]. destruct (isspace c); [|exact H].
  apply IH. cbn [single_spaced] in H.
  apply andb_true_iff in H as [_ H]. exact H.
Qed.

Lemma single_spaced_rstrip s :
  single_spaced s = true -> single_spaced (rstrip s) = true.
Proof.
  induction s as [|c s IH]; [reflexivity|]. intros H.
  cbn [single_spaced] in H. apply andb_true_iff in H as [H1 H2].
  rewrite rstrip_cons. destruct (rstrip s) as [|b r] eqn:E.
  - destruct (isspace c); [reflexivity|].
    cbn. rewrite andb_false_r. reflexivity.
  - pose proof (IH H2) as IH'.
    destruct (rstrip_head _ _ _ E) as [t ->].
    change (single_spaced (c :: b :: r))
      with (negb ((c =? SP)%N && head_is_space (b :: r))
            && single_spaced (b :: r)).
    rewrite IH', andb_true_r. exact H1.
Qed.

Lemma single_spaced_strip s :
  single_spaced s = true -> single_spaced (strip s) = true.
Proof.
  intros H. apply single_spaced_rstrip, single_spaced_lstrip, H.
Qed.

(** A cleaned text holds no character that cleaning would change. *)
Lemma clean_text_chars text c :
  In c (_clean_text text) -> to_space c = c.
Proof.
  rewrite clean_text_one_pass. intros H.
  apply strip_incl, squeeze_incl, in_map_iff in H.
  destruct H as (c0 & <- & _). apply to_space_idem.
Qed.

Lemma clean_text_single_spaced text :
  single_spaced (_clean_text text) = true.
Proof.
  rewrite clean_text_one_pass.
  apply single_spaced_strip, single_spaced_squeeze.
Qed.

Lemma clean_text_stripped text : strip (_clean_text text) = _clean_text text.
Proof. rewrite clean_text_one_pass. apply strip_idem. Qed.

(** C5, as the specification words it, fails: a denylisted character
    between two letters leaves a space between them, the letters do not
    become adjacent. *)
Example clean_text_denylisted_not_removed :
  _clean_text [0x61; 0xE924; 0x62]%N = lit "a b" /\
  clean_as_specified [0x61; 0xE924; 0x62]%N = lit "ab" /\
  _clean_text [0x61; 0xE924; 0x62]%N
    <> clean_as_specified [0x61; 0xE924; 0x62]%N.
Proof.
  split; [reflexivity|]. split; [reflexivity|].
  vm_compute. discriminate.
Qed.

(** C5 (amended): for every input string, [_clean_text] turns carriage
    returns, newlines and every character of the denylist into a space,
    keeps one space of every run of spaces, and trims white space at both
    ends; so its result holds none of these characters, no two spaces
    side by side and no white space at either end. *)
Theorem clean_text_spec (text : str) :
  _clean_text text = strip (squeeze (map to_space text)) /\
  forallb (fun c => negb ((c =? CR) || (c =? LF) || denylisted c)%N)
          (_clean_text text) = true /\
  single_spaced (_clean_text text) = true /\
  strip (_clean_text text) = _clean_text text.
Proof.
  split; [apply clean_text_one_pass|]. split; [|split].
  - apply forallb_forall. intros c Hc.
    pose proof (clean_text_chars text c Hc) as H. unfold to_space in H.
    destruct ((c =? CR) || (c =? LF) || denylisted c)%N eqn:E;
      [|reflexivity].
    subst c. vm_compute in E. discriminate.
  - apply clean_text_single_spaced.
  - apply clean_text_stripped.
Qed.

(** C6: cleaning is idempotent, [clean(clean(x)) == clean(x)] for every
    string [x]. *)
Theorem clean_text_idempotent (x : str) :
  _clean_text (_clean_text x) = _clean_text x.
Proof.
  rewrite (clean_text_one_pass (_clean_text x)).
  assert (Hmap : map to_space (_clean_text x) = _clean_text x).
  { rewrite <- (map_id (_clean_text x)) at 2.
    apply map_ext_in. intros c Hc. apply (clean_text_chars x c Hc). }
  rewrite Hmap, squeeze_fixed by apply clean_text_single_spaced.
  apply clean_text_stripped.
Qed.

End CleanFacts.

(* ===================================================================== *)
(** ** Strings that [strip] leaves alone *)
(* ===================================================================== *)

Module SolidFacts.
Import PyStr PyStrFacts.

(** A string is solid when it is not empty and has no white space at
    either end. *)
Definition Solid (s : str) : Prop :=
  s <> [] /\ lstrip s = s /\ rstrip s = s.

Lemma Solid_strip s : strip s <> [] -> Solid (strip s).
Proof.
  intros Hne. pose proof (Stripped_strip s) as H.
  destruct H as [|c Hc|c r d Hc Hd]; [contradiction| |].
  - repeat split; [discriminate | apply lstrip_fixed, Hc |].
    simpl. rewrite Hc. reflexivity.
  - repeat split; [discriminate | apply lstrip_fixed, Hc |].
    apply (rstrip_fixed (c :: r) d Hd).
Qed.

Lemma Solid_fixed s : Solid s -> strip s = s.
Proof. intros (_ & Hl & Hr). unfold strip. rewrite Hl. exact Hr. Qed.

Lemma lstrip_app a b : a <> [] -> lstrip a = a -> lstrip (a ++ b) = a ++ b.
Proof.
  destruct a as [|c a]; [contradiction|]. intros _ H. simpl in *.
  destruct (isspace c); [|reflexivity].
  exfalso. exact (lstrip_cons _ _ H).
Qed.

Lemma rstrip_app a b : rstrip b <> [] -> rstrip (a ++ b) = a ++ rstrip b.
Proof.
  intros Hb. induction a as [|x a IH]; [reflexivity|].
  change ((x :: a) ++ b) with (x :: (a ++ b)). rewrite rstrip_cons, IH.
  destruct (a ++ rstrip b) eqn:E; [|rewrite <- E; reflexivity].
  apply app_eq_nil in E as [_ E]. contradiction.
Qed.

Lemma Solid_app a m b : Solid a -> Solid b -> Solid (a ++ m ++ b).
Proof.
  intros (Ha & Hal & _) (Hb & _ & Hbr). repeat split.
  - destruct a; [contradiction | discriminate].
  - apply lstrip_app; assumption.
  - rewrite app_assoc, rstrip_app by (rewrite Hbr; exact Hb).
    rewrite Hbr. reflexivity.
Qed.

Lemma Solid_join sep l : l <> [] -> Forall Solid l -> Solid (join sep l).
Proof.
  induction l as [|p l IH]; [contradiction|]. intros _ H.
  inversion H as [|? ? Hp Hl]; subst. destruct l as [|q l]; [exact Hp|].
  change (join sep (p :: q :: l)) with (p ++ sep ++ join sep (q :: l)).
  apply Solid_app; [exact Hp | apply IH; [discriminate | exact Hl]].
Qed.

Lemma strip_join sep l : Forall Solid l -> strip (join sep l) = join sep l.
Proof.
  intros H. destruct l as [|p l]; [reflexivity|].
  apply Solid_fixed, Solid_join; [discriminate | exact H].
Qed.

(** The length of a joined list: the parts and one separator between
    neighbours. *)
Lemma join_length sep p l :
  length (join sep (p :: l)) + length sep =
  fold_right (fun s n => length s + length sep + n) 0 (p :: l).
Proof.
  revert p. induction l as [|q l IH]; intros p.
  - simpl. lia.
  - change (join sep (p :: q :: l)) with (p ++ sep ++ join sep (q :: l)).
    rewrite !length_app. specialize (IH q). simpl in *. lia.
Qed.

End SolidFacts.

(* ===================================================================== *)
(** ** The snippet merger: [_merge_snippets] *)
(* ===================================================================== *)

Module MergeFacts.
Import PyStr PyStrFacts SolidFacts Pipeline.

Definition nonempty (s : str) : bool :=
  match s with
  | [] => false
  | _ => true
  end.

(** The snippets the loop looks at: stripped, the empty ones left out. *)
Definition items (snippets : list str) : list str :=
  filter nonempty (map strip snippets).

(** What the loop charges for a snippet: its length and one separator. *)
Definition cost (s : str) : Z := (Z.of_nat (length s) + 1)%Z.

Definition total (l : list str) : Z :=
  fold_right (fun s n => (cost s + n)%Z) 0%Z l.

(** The longest run of leading items whose charges, added to [cur], stay
    within [max_chars]. *)
Fixpoint take_fit (max_chars cur : Z) (l : list str) : list str :=
  match l with
  | [] => []
  | s :: rest =>
    if (cur + cost s >? max_chars)%Z then []
    else s :: take_fit max_chars (cur + cost s) rest
  end.

(** Modelled after the words of the specification of [merge]: the
    accumulated length is the length of the text built so far, separators
    included, and a snippet is appended unless that length would exceed
    [max_chars]. *)
Fixpoint merge_as_specified_loop (max_chars : Z) (snippets : list str)
         (acc : str) : str :=
  match snippets with
  | [] => acc
  | s :: rest =>
    match s with
    | [] => merge_as_specified_loop max_chars rest acc
    | _ =>
      let longer := match acc with [] => s | _ => acc ++ [SP] ++ s end in
      if (Z.of_nat (length longer) >? max_chars)%Z then acc
      else merge_as_specified_loop max_chars rest longer
    end
  end.

Definition merge_as_specified (snippets : list str) (max_chars : Z) : str :=
  merge_as_specified_loop max_chars snippets [].

Lemma merge_loop_take_fit max_chars snippets :
  forall merged cur,
    merge_loop max_chars snippets merged cur =
    merged ++ take_fit max_chars cur (items snippets).
Proof.
  unfold items.
  induction snippets as [|s snippets IH]; intros merged cur.
  - simpl. rewrite app_nil_r. reflexivity.
  - cbn [merge_loop map filter].
    destruct (strip s) as [|c t] eqn:E; [apply IH|].
    cbn [nonempty take_fit]. unfold cost.
    destruct (cur + Z.of_nat (length (c :: t)) + 1 >? max_chars)%Z eqn:G.
    + rewrite <- Z.add_assoc in G. rewrite G, app_nil_r. reflexivity.
    + rewrite IH. rewrite <- Z.add_assoc in G. rewrite G.
      rewrite <- app_assoc, <- Z.add_assoc. reflexivity.
Qed.

Lemma items_Solid snippets : Forall Solid (items snippets).
Proof.
  unfold items. apply Forall_forall. intros x Hx.
  apply filter_In in Hx as [Hin Hne]. apply in_map_iff in Hin as (s & <- & _).
  apply Solid_strip. destruct (strip s); [discriminate | discriminate].
Qed.

Lemma take_fit_split max_chars l :
  forall cur, exists dropped,
    l = take_fit max_chars cur l ++ dropped /\
    match dropped with
    | [] => True
    | s :: _ =>
      (cur + total (take_fit max_chars cur l) + cost s > max_chars)%Z
    end.
Proof.
  induction l as [|s l IH]; intros cur.
  - exists []. split; [reflexivity | exact I].
  - cbn [take_fit]. destruct (cur + cost s >? max_chars)%Z eqn:G.
    + exists (s :: l). split; [reflexivity|]. simpl. lia.
    + destruct (IH (cur + cost s)%Z) as (dropped & Heq & Hd).
      exists dropped. split; [simpl; f_equal; exact Heq|].
      destruct dropped; [exact I|]. cbn [total fold_right] in *.
      fold (total (take_fit max_chars (cur + cost s) l)). 
      unfold total in *. lia.
Qed.

Lemma take_fit_total max_chars l :
  forall cur,
    take_fit max_chars cur l = [] \/
    (cur + total (take_fit max_chars cur l) <= max_chars)%Z.
Proof.
  induction l as [|s l IH]; intros cur; [left; reflexivity|].
  cbn [take_fit]. destruct (cur + cost s >? max_chars)%Z eqn:G;
    [left; reflexivity|].
  right. cbn [total fold_right].
  destruct (IH (cur + cost s)%Z) as [->|H]; [simpl; lia|].
  unfold total in *. lia.
Qed.

Lemma Forall_Solid_prefix (a b : list str) :
  Forall Solid (a ++ b) -> Forall Solid a.
Proof. intros H. apply Forall_app in H. tauto. Qed.

Lemma take_fit_Solid max_chars cur snippets :
  Forall Solid (take_fit max_chars cur (items snippets)).
Proof.
  destruct (take_fit_split max_chars (items snippets) cur) as (d & Heq & _).
  apply (Forall_Solid_prefix _ d). rewrite <- Heq. apply items_Solid.
Qed.

Lemma merge_snippets_join snippets max_chars :
  _merge_snippets snippets max_chars =
  join [SP] (take_fit max_chars 0 (items snippets)).
Proof.
  unfold _merge_snippets. rewrite merge_loop_take_fit. cbn [app].
  apply strip_join, take_fit_Solid.
Qed.

Lemma join_space_length l :
  l <> [] -> (Z.of_nat (length (join [SP] l)) = total l - 1)%Z.
Proof.
  destruct l as [|p l]; [contradiction|]. intros _.
  pose proof (join_length [SP] p l) as H.
  assert (E : forall k : list str,
             Z.of_nat (fold_right (fun s n => length s + length [SP] + n) 0 k)
             = total k).
  { induction k as [|q k IHk]; [reflexivity|].
    cbn [fold_right total]. fold (total k). unfold cost.
    rewrite <- IHk. simpl length. lia. }
  rewrite <- E, <- H. simpl length. lia.
Qed.

(** C3, as the specification words it, fails: under a negative budget the
    merged string is empty, and so longer than the budget. *)
Example merge_snippets_negative_budget_exceeded :
  _merge_snippets [lit "abc"] (-1) = [] /\
  ~ (Z.of_nat (length (_merge_snippets [lit "abc"] (-1))) <= -1)%Z.
Proof.
  split; [reflexivity|]. vm_compute. intros H. apply H. reflexivity.
Qed.

(** C3 (amended): for every list of snippets and every budget [max_chars]
    that is not negative, the merged string is never longer than
    [max_chars]; under a negative budget it is empty; and for every
    budget it is made of whole snippets: it is the join, by one space, of
    the first few stripped non-empty snippets. *)
Theorem merge_snippets_bounded (snippets : list str) (max_chars : Z) :
  ((0 <= max_chars)%Z ->
   (Z.of_nat (length (_merge_snippets snippets max_chars)) <= max_chars)%Z) /\
  ((max_chars < 0)%Z -> _merge_snippets snippets max_chars = []) /\
  exists taken dropped,
    filter nonempty (map strip snippets) = taken ++ dropped /\
    _merge_snippets snippets max_chars = join [SP] taken.
Proof.
  rewrite merge_snippets_join.
  pose proof (take_fit_total max_chars (items snippets) 0%Z) as Ht.
  split; [|split].
  - intros Hbudget.
    destruct (take_fit max_chars 0 (items snippets)) as [|p l] eqn:E;
      [simpl; lia|].
    rewrite join_space_length by discriminate.
    destruct Ht as [H|H]; [discriminate | lia].
  - intros Hneg.
    destruct (take_fit max_chars 0 (items snippets)) as [|p l] eqn:E;
      [reflexivity|].
    exfalso. destruct Ht as [H|H]; [discriminate|].
    pose proof (join_space_length (p :: l) ltac:(discriminate)) as Hj.
    lia.
  - destruct (take_fit_split max_chars (items snippets) 0%Z) as (d & Heq & _).
    exists (take_fit max_chars 0 (items snippets)), d.
    split; [exact Heq | reflexivity].
Qed.

Lemma merge_snippets_bounded_witness :
  (0 <= 7)%Z /\
  (Z.of_nat (length (_merge_snippets [lit "abc"; lit " "; lit " de "] 7))
   <= 7)%Z.
Proof.
  split; [lia|].
  apply (proj1 (merge_snippets_bounded [lit "abc"; lit " "; lit " de "] 7)).
  lia.
Defined.

(** C4, as the specification words it, fails: a first snippet whose length
    is exactly [max_chars] is not appended, the loop charges it one
    separator more than the merged text holds. *)
Example merge_snippets_exact_budget_dropped :
  _merge_snippets [lit "abc"] 3 = [] /\
  merge_as_specified [lit "abc"] 3 = lit "abc" /\
  _merge_snippets [lit "abc"] 3 <> merge_as_specified [lit "abc"] 3.
Proof.
  split; [reflexivity|]. split; [reflexivity|].
  vm_compute. discriminate.
Qed.

(** C4 (amended): [_merge_snippets] joins with one space, in input order,
    the longest run of leading stripped non-empty snippets whose lengths,
    each counted with one separator, add up to at most [max_chars]; it
    stops at the first snippet that does not fit in this count. *)
Theorem merge_snippets_greedy (snippets : list str) (max_chars : Z) :
  let taken := take_fit max_chars 0 (items snippets) in
  _merge_snippets snippets max_chars = join [SP] taken /\
  (exists dropped,
      items snippets = taken ++ dropped /\
      match dropped with
      | [] => True
      | s :: _ => (total taken + cost s > max_chars)%Z
      end) /\
  (taken = [] \/ (total taken <= max_chars)%Z).
Proof.
  cbv zeta. split; [apply merge_snippets_join|]. split.
  - destruct (take_fit_split max_chars (items snippets) 0%Z) as (d & Heq & Hd).
    exists d. split; [exact Heq|]. destruct d; [exact I | lia].
  - destruct (take_fit_total max_chars (items snippets) 0%Z) as [H|H];
      [left; exact H | right; lia].
Qed.

(** With a negative budget nothing fits. *)
Lemma merge_snippets_negative_budget (snippets : list str) (max_chars : Z) :
  (max_chars < 0)%Z -> _merge_snippets snippets max_chars = [].
Proof.
  intros H. rewrite merge_snippets_join.
  destruct (take_fit_total max_chars (items snippets) 0%Z) as [->|Ht];
    [reflexivity|].
  destruct (take_fit max_chars 0 (items snippets)) as [|p l];
    [reflexivity|].
  exfalso. cbn [total fold_right] in Ht. fold (total l) in Ht.
  assert (0 <= total l)%Z.
  { clear. induction l as [|q l IH]; [simpl; lia|].
    cbn [total fold_right]. fold (total l). unfold cost. lia. }
  unfold cost in Ht. lia.
Qed.

(** A first snippet that fills the budget exactly is left out, and with it
    everything after it. *)
Lemma merge_first_exact_budget (s : str) (rest : list str) :
  Solid s ->
  _merge_snippets (s :: rest) (Z.of_nat (length s)) = [].
Proof.
  intros Hs. rewrite merge_snippets_join. unfold items.
  cbn [map filter]. rewrite (Solid_fixed s Hs).
  destruct Hs as (Hne & _). destruct s as [|c t]; [contradiction|].
  cbn [nonempty take_fit]. unfold cost.
  replace (0 + (Z.of_nat (length (c :: t)) + 1) >? Z.of_nat (length (c :: t)))%Z
    with true by (symmetry; apply Z.gtb_lt; lia).
  reflexivity.
Qed.

(** One character of room more, and it is appended whole. *)
Lemma merge_first_fits (s : str) :
  Solid s ->
  _merge_snippets [s] (Z.of_nat (length s) + 1) = s.
Proof.
  intros Hs. rewrite merge_snippets_join. unfold items.
  cbn [map filter]. rewrite (Solid_fixed s Hs).
  destruct Hs as (Hne & _). destruct s as [|c t]; [contradiction|].
  cbn [nonempty take_fit]. unfold cost.
  replace (0 + (Z.of_nat (length (c :: t)) + 1) >? Z.of_nat (length (c :: t)) + 1)%Z
    with false by (symmetry; rewrite Z.gtb_ltb; apply Z.ltb_ge; lia).
  reflexivity.
Qed.

End MergeFacts.

(* ===================================================================== *)
(** ** Loops that append to a list *)
(* ===================================================================== *)

Module LoopFacts.

(** A [for] loop that appends [f x] for the elements that pass a test
    computes a filter followed by a map. *)
Lemma fold_left_append {A B : Type} (step : list B -> A -> list B)
      (p : A -> bool) (f : A -> B) :
  (forall acc x, step acc x = if p x then acc ++ [f x] else acc) ->
  forall l acc, fold_left step l acc = acc ++ map f (filter p l).
Proof.
  intros Hstep. induction l as [|x l IH]; intros acc; cbn [fold_left filter].
  - rewrite app_nil_r. reflexivity.
  - rewrite IH, Hstep. destruct (p x); [|reflexivity].
    cbn [map]. rewrite <- app_assoc. reflexivity.
Qed.

End LoopFacts.

(** The case mapping on Latin-1 text (the brochures and the questions are
    French), to run the pipeline on examples. *)
Module Latin1.
Import PyStr.

Definition lower_char (c : char) : char :=
  if ((0x41 <=? c) && (c <=? 0x5A)
      || (0xC0 <=? c) && (c <=? 0xDE) && negb (c =? 0xD7))%N
  then (c + 0x20)%N else c.

Definition lower (s : str) : str := map lower_char s.

End Latin1.

(* ===================================================================== *)
(** ** Topic detection and topic filtering *)
(* ===================================================================== *)

Module TopicFacts.
Import PyStr Pipeline LoopFacts.

(** Modelled after the words of the specification of [detect_topics]: an
    ordered list of rules, each with its trigger substrings and its tags;
    the first rule with a trigger in the query gives the result. *)
Definition TOPIC_RULES : list (list str * list str) :=
  [ ([lit "otite"], [lit "otite"]);
    ([lit "rhinopharyng"], [lit "rhinopharyngite"]);
    ([lit "angine"], [lit "angine"]);
    ([lit "fièvre"; lit "fievre"], [lit "fievre"]);
    ([lit "gastro"], [lit "gastro"]);
    ([lit "bronchiolite"], [lit "bronchiolite"]);
    ([lit "hypertension"; lit "tension"], [lit "hypertension"]);
    ([lit "diabète"; lit "diabete"], [lit "diabete"]);
    ([lit "migraine"], [lit "migraine"]);
    ([lit "grippe"], [lit "grippe"]);
    ([lit "covid"], [lit "covid"]);
    ([lit "asthme"], [lit "asthme"]);
    ([lit "allerg"], [lit "allergie"; lit "allergies"]);
    ([lit "cholestérol"; lit "cholesterol"], [lit "cholesterol"]) ].

Definition rule_matches (q : str) (rule : list str * list str) : bool :=
  existsb (fun trigger => contains trigger q) (fst rule).

Definition first_match (rules : list (list str * list str)) (q : str)
  : list str :=
  match find (rule_matches q) rules with
  | Some rule => snd rule
  | None => []
  end.

Section WithCaseMapping.

Variable lower : str -> str.

Ltac rule_case q t :=
  destruct (contains t q);
  cbn [orb find existsb fst snd rule_matches];
  [reflexivity|].

Lemma get_topic_keywords_first_match query :
  _get_topic_keywords lower query = first_match TOPIC_RULES (lower query).
Proof.
  unfold _get_topic_keywords, first_match, TOPIC_RULES.
  cbv zeta. generalize (lower query) as q. intros q.
  cbn [orb find existsb fst snd rule_matches].
  rule_case q (lit "otite"). rule_case q (lit "rhinopharyng"). rule_case q (lit "angine").
  rule_case q (lit "fièvre"). rule_case q (lit "fievre"). rule_case q (lit "gastro").
  rule_case q (lit "bronchiolite"). rule_case q (lit "hypertension").
  rule_case q (lit "tension"). rule_case q (lit "diabète"). rule_case q (lit "diabete").
  rule_case q (lit "migraine"). rule_case q (lit "grippe"). rule_case q (lit "covid").
  rule_case q (lit "asthme"). rule_case q (lit "allerg"). rule_case q (lit "cholestérol").
  rule_case q (lit "cholesterol"). reflexivity.
Qed.

(** Every answer of [_get_topic_keywords] is the tag list of one rule, or
    empty: tags of two rules are never put together. *)
Lemma get_topic_keywords_one_rule query :
  _get_topic_keywords lower query = [] \/
  exists rule, In rule TOPIC_RULES /\
               rule_matches (lower query) rule = true /\
               _get_topic_keywords lower query = snd rule.
Proof.
  rewrite get_topic_keywords_first_match. unfold first_match.
  destruct (find (rule_matches (lower query)) TOPIC_RULES) as [rule|] eqn:E;
    [right | left; reflexivity].
  apply find_some in E. exists rule. tauto.
Qed.

(** C7: topic detection goes through its rules in their fixed order on the
    lower-cased query and returns the tags of the first rule that matches,
    and nothing when none does; a query whose lower-cased form contains
    "otite" gets exactly the tag "otite", whatever else it names. *)
Theorem get_topic_keywords_priority (query : str) :
  _get_topic_keywords lower query = first_match TOPIC_RULES (lower query) /\
  (find (rule_matches (lower query)) TOPIC_RULES = None ->
   _get_topic_keywords lower query = []) /\
  (contains (lit "otite") (lower query) = true ->
   _get_topic_keywords lower query = [lit "otite"]).
Proof.
  split; [apply get_topic_keywords_first_match|]. split.
  - intros H. rewrite get_topic_keywords_first_match. unfold first_match.
    rewrite H. reflexivity.
  - intros H. unfold _get_topic_keywords. cbv zeta. rewrite H. reflexivity.
Qed.

Variable Score : Type.

(** A result passes when its file name, lower-cased, contains one of the
    keywords. *)
Definition names_topic (topics : list str) (r : QueryResult Score) : bool :=
  existsb (fun kw => contains kw (lower (get (qr_filename r) []))) topics.

Lemma filter_results_by_topic_cases results query :
  _filter_results_by_topic lower results query =
  match _get_topic_keywords lower query with
  | [] => results
  | topics =>
    match filter (names_topic topics) results with
    | [] => results
    | matching => matching
    end
  end.
Proof.
  unfold _filter_results_by_topic. cbv zeta.
  destruct (_get_topic_keywords lower query) as [|kw kws]; [reflexivity|].
  rewrite (fold_left_append _ (names_topic (kw :: kws)) (fun r => r))
    by reflexivity.
  rewrite map_id. cbn [app].
  destruct (filter (names_topic (kw :: kws)) results); reflexivity.
Qed.

(** C2: on a non-empty list of results, topic filtering never returns an
    empty list; with no topic detected it returns the results unchanged;
    otherwise it keeps, in their order, exactly the results whose file
    name contains (case-insensitively) a detected keyword, and returns
    all the results when none does. *)
Theorem filter_results_by_topic_fallback
        (results : list (QueryResult Score)) (query : str)
        (Hresults : results <> []) :
  let topics := _get_topic_keywords lower query in
  let matching := filter (names_topic topics) results in
  let out := _filter_results_by_topic lower results query in
  out <> [] /\
  (topics = [] -> out = results) /\
  (topics <> [] -> matching <> [] -> out = matching) /\
  (topics <> [] -> matching = [] -> out = results).
Proof.
  cbv zeta. rewrite filter_results_by_topic_cases.
  destruct (_get_topic_keywords lower query) as [|kw kws] eqn:Et.
  - repeat split; try assumption; try reflexivity; intros H; now elim H.
  - destruct (filter (names_topic (kw :: kws)) results) as [|m ms] eqn:Ef.
    + repeat split; try assumption; try reflexivity; try discriminate.
      intros _ H; now elim H.
    + repeat split; try discriminate; reflexivity.
Qed.

End WithCaseMapping.

Arguments names_topic lower {Score} topics r.

Definition otite_result : QueryResult unit :=
  {| qr_filename := Some (lit "Otite_conduite.pdf"); qr_score := None;
     qr_chunk_index := Some 0%Z; qr_text := Some (lit "texte") |}.

Definition diabete_result : QueryResult unit :=
  {| qr_filename := Some (lit "diabete_info.pdf"); qr_score := None;
     qr_chunk_index := Some 3%Z; qr_text := Some (lit "texte") |}.

Lemma filter_results_by_topic_fallback_witness :
  [diabete_result; otite_result] <> [] /\
  _filter_results_by_topic Latin1.lower [diabete_result; otite_result]
    (lit "Mon enfant a une otite, que faire ?") = [otite_result].
Proof.
  split; [discriminate|].
  refine (proj1 (proj2 (proj2
    (filter_results_by_topic_fallback Latin1.lower unit
       [diabete_result; otite_result]
       (lit "Mon enfant a une otite, que faire ?") _))) _ _);
    discriminate.
Defined.

Lemma get_topic_keywords_priority_witness :
  contains (lit "otite")
           (Latin1.lower (lit "Mon enfant a une OTITE et du diabète")) = true /\
  _get_topic_keywords Latin1.lower
    (lit "Mon enfant a une OTITE et du diabète") = [lit "otite"].
Proof.
  split; [reflexivity|].
  apply (get_topic_keywords_priority Latin1.lower
           (lit "Mon enfant a une OTITE et du diabète")).
  reflexivity.
Defined.

End TopicFacts.

(* ===================================================================== *)
(** ** Sentences and summaries *)
(* ===================================================================== *)

Module SummaryFacts.
Import PyStr PyStrFacts SolidFacts Pipeline LoopFacts.

Lemma split_sentences_filter text :
  _split_sentences text =
  map strip (filter (fun p => 0 <? length (strip p))
                    (split DOT (_clean_text text))).
Proof.
  unfold _split_sentences. cbv zeta.
  rewrite (fold_left_append _ (fun p => 0 <? length (strip p)) strip)
    by reflexivity.
  reflexivity.
Qed.

Lemma split_sentences_Solid text : Forall Solid (_split_sentences text).
Proof.
  rewrite split_sentences_filter. apply Forall_forall. intros s Hs.
  apply in_map_iff in Hs as (p & <- & Hp). apply filter_In in Hp as [_ Hp].
  apply Solid_strip. apply Nat.ltb_lt in Hp.
  destruct (strip p); [simpl in Hp; lia | discriminate].
Qed.

(** Splitting an empty cleaned text gives no sentence. *)
Lemma split_sentences_clean_empty text :
  _clean_text text = [] -> _split_sentences text = [].
Proof.
  intros H. rewrite split_sentences_filter, H. reflexivity.
Qed.

Section WithCaseMapping.

Variable lower : str -> str.

(** The test of [_filter_sentences]: a sentence is kept when none of the
    four reasons to drop it holds. *)
Definition kept_sentence (s : str) : bool :=
  let s_clean := strip s in
  let s_lower := lower s_clean in
  negb (length s_clean <? 30)
  && negb (existsb (fun p => contains (lower p) s_lower) UNWANTED_PATTERNS)
  && negb (existsb (fun p => contains p s_lower) BIBLIO_PATTERNS)
  && negb (existsb (fun m => startswith s_lower m) MONTHS).

Lemma filter_sentences_filter sentences :
  _filter_sentences lower sentences =
  map strip (filter kept_sentence sentences).
Proof.
  unfold _filter_sentences.
  rewrite (fold_left_append _ kept_sentence strip); [reflexivity|].
  intros acc s. unfold kept_sentence. cbv zeta.
  destruct (length (strip s) <? 30); [reflexivity|].
  destruct (existsb _ UNWANTED_PATTERNS); [reflexivity|].
  destruct (existsb _ BIBLIO_PATTERNS); [reflexivity|].
  destruct (existsb _ MONTHS); reflexivity.
Qed.

Lemma filter_sentences_Solid sentences :
  Forall Solid (_filter_sentences lower sentences).
Proof.
  rewrite filter_sentences_filter. apply Forall_forall. intros s Hs.
  apply in_map_iff in Hs as (p & <- & Hp). apply filter_In in Hp as [_ Hp].
  apply Solid_strip. unfold kept_sentence in Hp. cbv zeta in Hp.
  destruct (length (strip p) <? 30) eqn:E; [discriminate|].
  apply Nat.ltb_ge in E. destruct (strip p); [simpl in E; lia | discriminate].
Qed.

(** Sentences that are all shorter than 30 characters are all dropped. *)
Lemma filter_sentences_short sentences :
  Forall (fun s => length (strip s) < 30) sentences ->
  _filter_sentences lower sentences = [].
Proof.
  intros H. rewrite filter_sentences_filter.
  induction H as [|s l Hs _ IH]; [reflexivity|].
  cbn [filter]. unfold kept_sentence at 1. cbv zeta.
  apply Nat.ltb_lt in Hs. rewrite Hs. exact IH.
Qed.

(** Modelled after the words of the specification of [summarize]. *)
Definition summarize_as_specified (raw_text : str) (max_sentences : nat)
  : str :=
  let survivors := _filter_sentences lower (_split_sentences raw_text) in
  match survivors with
  | [] => []
  | _ =>
    let summary := join (lit ". ") (firstn max_sentences survivors) in
    if endswith summary (lit ".") then summary else summary ++ lit "."
  end.

Lemma Forall_firstn {A} (P : A -> Prop) n (l : list A) :
  Forall P l -> Forall P (firstn n l).
Proof.
  intros H. rewrite <- (firstn_skipn n l) in H.
  apply Forall_app in H. tauto.
Qed.

Lemma summarize_snippet_nonneg text max_sentences :
  (0 <= max_sentences)%Z ->
  _summarize_snippet lower text max_sentences =
  summarize_as_specified text (Z.to_nat max_sentences).
Proof.
  intros Hn. unfold _summarize_snippet, summarize_as_specified. cbv zeta.
  pose proof (filter_sentences_Solid (_split_sentences text)) as HS.
  destruct (_filter_sentences lower (_split_sentences text)) as [|s l];
    [reflexivity|].
  unfold slice_to. replace (0 <=? max_sentences)%Z with true
    by (symmetry; apply Z.leb_le; exact Hn).
  rewrite strip_join by (apply Forall_firstn; exact HS).
  destruct (endswith _ _); reflexivity.
Qed.

(** A summary is empty exactly when no sentence survives. *)
Lemma summarize_snippet_empty text max_sentences :
  _summarize_snippet lower text max_sentences = [] <->
  _filter_sentences lower (_split_sentences text) = [].
Proof.
  unfold _summarize_snippet. cbv zeta.
  destruct (_filter_sentences lower (_split_sentences text)) as [|s l];
    [tauto|].
  split; [|discriminate]. intros H. exfalso.
  destruct (endswith _ (lit ".")) eqn:E; cbn [negb] in H.
  - rewrite H in E. discriminate.
  - apply app_eq_nil in H as [_ H]. discriminate.
Qed.

(** C8: the summary is made by splitting the raw text into sentences,
    filtering them, taking the first [max_sentences] survivors, joining
    them with ". " and adding a final period when there is none; with no
    survivor the summary is empty, as for the empty text and for "   ",
    whatever [max_sentences] is. *)
Theorem summarize_snippet_spec (text : str) (max_sentences : Z) :
  ((0 <= max_sentences)%Z ->
   _summarize_snippet lower text max_sentences =
   summarize_as_specified text (Z.to_nat max_sentences)) /\
  (_filter_sentences lower (_split_sentences text) = [] ->
   _summarize_snippet lower text max_sentences = []) /\
  _summarize_snippet lower [] max_sentences = [] /\
  _summarize_snippet lower (lit "   ") max_sentences = [].
Proof.
  split; [apply summarize_snippet_nonneg|]. split; [|split].
  - apply summarize_snippet_empty.
  - apply summarize_snippet_empty. reflexivity.
  - apply summarize_snippet_empty.
    rewrite split_sentences_clean_empty by (vm_compute; reflexivity).
    reflexivity.
Qed.

End WithCaseMapping.

Definition otite_text : str :=
  lit "L'otite moyenne est une infection de l'oreille.  Lire aussi : la fièvre de l'enfant en bas âge. Court. Un avis médical est conseillé si la douleur persiste. Elle touche surtout les jeunes enfants en hiver".

Lemma summarize_snippet_spec_witness :
  (0 <= 2)%Z /\
  _summarize_snippet Latin1.lower otite_text 2 =
  lit "L'otite moyenne est une infection de l'oreille. Un avis médical est conseillé si la douleur persiste.".
Proof.
  split; [lia|].
  rewrite (proj1 (summarize_snippet_spec Latin1.lower otite_text 2))
    by lia.
  vm_compute. reflexivity.
Defined.

End SummaryFacts.

(* ===================================================================== *)
(** ** The answer composer: [answer_question_extractive] *)
(* ===================================================================== *)

Module AnswerFacts.
Import PyStr PyStrFacts SolidFacts Pipeline SummaryFacts.

Section Composer.

Variable lower : str -> str.
Variable Score : Type.
Variable zero_score : Score.
Variables Embeddings Metadata : Type.
Variable retrieve_top_k :
  str -> Embeddings -> Metadata -> Z -> list (QueryResult Score).

(** The truncated chunk text of a result. *)
Definition raw_text_of (max_chunk_chars : Z) (r : QueryResult Score) : str :=
  slice_to max_chunk_chars (get (qr_text r) []).

(** The source entry the loop makes for a result. *)
Definition source_of (max_chunk_chars : Z) (r : QueryResult Score)
  : Source Score :=
  let raw_text := raw_text_of max_chunk_chars r in
  {| src_filename :=
       OsPath.basename (get (qr_filename r) (lit "document inconnu"));
     src_score := get (qr_score r) zero_score;
     src_chunk_index := get (qr_chunk_index r) (-1)%Z;
     src_snippet :=
       match _summarize_snippet lower raw_text 3 with
       | [] => _clean_text raw_text
       | summarized => summarized
       end |}.

(** The results the composer goes through: those that pass the topic
    filter. *)
Definition retained (query : str) (doc_embeddings : Embeddings)
           (metadata : Metadata) (k : Z) : list (QueryResult Score) :=
  match retrieve_top_k query doc_embeddings metadata k with
  | [] => []
  | results => _filter_results_by_topic lower results query
  end.

Lemma process_results_sources max_chunk_chars results :
  forall st,
    snd (fold_left (process_result lower zero_score max_chunk_chars)
                   results st) =
    snd st ++ map (source_of max_chunk_chars) results.
Proof.
  induction results as [|r results IH]; intros [snippets srcs].
  - simpl. rewrite app_nil_r. reflexivity.
  - cbn [fold_left map]. rewrite IH.
    unfold process_result, source_of, raw_text_of. cbv beta iota zeta.
    cbn [snd]. rewrite <- app_assoc.
    destruct (_summarize_snippet lower _ 3); reflexivity.
Qed.

Lemma answer_sources query doc_embeddings metadata k max_chunk_chars :
  sources (answer_question_extractive lower zero_score retrieve_top_k
             query doc_embeddings metadata k max_chunk_chars) =
  map (source_of max_chunk_chars)
      (retained query doc_embeddings metadata k).
Proof.
  unfold answer_question_extractive, retained. cbv zeta.
  destruct (retrieve_top_k query doc_embeddings metadata k) as [|r rs];
    [reflexivity|].
  pose proof (process_results_sources max_chunk_chars
                (_filter_results_by_topic lower (r :: rs) query) ([], []))
    as H.
  destruct (fold_left _ _ _) as [snippets srcs]. cbn [snd app] in H.
  cbn [sources]. exact H.
Qed.

(** A cleaned text with a sentence in it is not empty. *)
Lemma split_sentences_nonempty text :
  _split_sentences text <> [] -> _clean_text text <> [].
Proof.
  intros H E. apply H. apply split_sentences_clean_empty. exact E.
Qed.

(** The sentences of a text whose cleaned form is empty. *)
Lemma summarize_clean_empty text n :
  _clean_text text = [] -> _summarize_snippet lower text n = [].
Proof.
  intros H. apply summarize_snippet_empty.
  rewrite split_sentences_clean_empty by exact H. reflexivity.
Qed.

(** C9: the composer makes one source per retained result; when the
    summary of the truncated chunk text is empty the snippet is the
    cleaned truncated text, so a snippet is empty only when cleaning the
    truncated text gives the empty string; a chunk made only of sentences
    shorter than 30 characters gets its cleaned text as snippet, which is
    not empty. *)
Theorem answer_snippet_fallback (query : str) (doc_embeddings : Embeddings)
        (metadata : Metadata) (k max_chunk_chars : Z) :
  let result :=
    answer_question_extractive lower zero_score retrieve_top_k
      query doc_embeddings metadata k max_chunk_chars in
  sources result =
  map (source_of max_chunk_chars)
      (retained query doc_embeddings metadata k) /\
  forall r : QueryResult Score,
    In r (retained query doc_embeddings metadata k) ->
    let raw_text := raw_text_of max_chunk_chars r in
    let snippet := src_snippet (source_of max_chunk_chars r) in
    (_summarize_snippet lower raw_text 3 = [] ->
     snippet = _clean_text raw_text) /\
    (snippet = [] <-> _clean_text raw_text = []) /\
    (_split_sentences raw_text <> [] ->
     Forall (fun s => length s < 30) (_split_sentences raw_text) ->
     snippet = _clean_text raw_text /\ snippet <> []).
Proof.
  cbv zeta. split; [apply answer_sources|].
  intros r _. unfold source_of. cbv zeta. cbn [src_snippet].
  fold (raw_text_of max_chunk_chars r).
  set (raw := raw_text_of max_chunk_chars r).
  split; [|split].
  - intros ->. reflexivity.
  - split.
    + destruct (_summarize_snippet lower raw 3) eqn:E;
        [tauto | discriminate].
    + intros H. rewrite (summarize_clean_empty raw 3 H). exact H.
  - intros Hne Hshort.
    assert (E : _summarize_snippet lower raw 3 = []).
    { apply summarize_snippet_empty, filter_sentences_short.
      pose proof (split_sentences_Solid raw) as HS.
      rewrite Forall_forall in *. intros s Hs.
      rewrite (Solid_fixed s (HS s Hs)). apply Hshort, Hs. }
    rewrite E. split; [reflexivity|].
    apply split_sentences_nonempty, Hne.
Qed.

End Composer.

(** A retriever with one short chunk to return. *)
Definition short_chunk : QueryResult unit :=
  {| qr_filename := Some (lit "data/brochures/otite.pdf");
     qr_score := Some tt; qr_chunk_index := Some 0%Z;
     qr_text := Some (lit " Otite" ++ [LF] ++ lit "aiguë.  Voir un médecin. ") |}.

Definition one_chunk (query : str) (vectors metadata : unit) (k : Z)
  : list (QueryResult unit) := [short_chunk].

Lemma answer_snippet_fallback_witness :
  In short_chunk (retained Latin1.lower unit unit unit one_chunk
                           (lit "otite ?") tt tt 3) /\
  src_snippet (source_of Latin1.lower unit tt 800 short_chunk)
  = lit "Otite aiguë. Voir un médecin.".
Proof.
  split; [left; reflexivity|].
  refine (eq_trans
    (proj1 (proj2 (proj2
       (proj2 (answer_snippet_fallback Latin1.lower unit tt unit unit
                 one_chunk (lit "otite ?") tt tt 3 800)
              short_chunk (or_introl eq_refl)))
       _ _)) _).
  - vm_compute. discriminate.
  - vm_compute. repeat constructor.
  - vm_compute. reflexivity.
Defined.

End AnswerFacts.

(* ===================================================================== *)
(** ** The offline build: file names are base names *)
(* ===================================================================== *)

Module BuildFacts.
Import PyStr Build.

Lemma rfind_lower_bound c s : (-1 <= rfind c s)%Z.
Proof.
  induction s as [|x s IH]; simpl; [lia|].
  destruct (0 <=? rfind c s)%Z eqn:E; [apply Z.leb_le in E; lia|].
  destruct (x =? c)%N; lia.
Qed.

Lemma rfind_absent c s : rfind c s = (-1)%Z -> ~ In c s.
Proof.
  induction s as [|x s IH]; simpl; [tauto|].
  pose proof (rfind_lower_bound c s) as L.
  destruct (0 <=? rfind c s)%Z eqn:E; [apply Z.leb_le in E; lia|].
  apply Z.leb_gt in E. destruct (x =? c)%N eqn:Ex; [discriminate|].
  intros _ [->|H]; [rewrite N.eqb_refl in Ex; discriminate|].
  apply IH; [lia | exact H].
Qed.

Lemma absent_rfind c s : ~ In c s -> rfind c s = (-1)%Z.
Proof.
  induction s as [|x s IH]; simpl; [reflexivity|]. intros H.
  rewrite IH by tauto. simpl.
  destruct (x =? c)%N eqn:Ex; [|reflexivity].
  apply N.eqb_eq in Ex. tauto.
Qed.

(** The base name, one character at a time. *)
Lemma basename_cons x s :
  OsPath.basename (x :: s) =
  if (0 <=? rfind SLASH s)%Z then OsPath.basename s
  else if (x =? SLASH)%N then s else x :: s.
Proof.
  unfold OsPath.basename, slice_from. cbv zeta. cbn [rfind].
  pose proof (rfind_lower_bound SLASH s) as L.
  destruct (0 <=? rfind SLASH s)%Z eqn:E.
  - apply Z.leb_le in E.
    replace (Z.to_nat (rfind SLASH s + 1 + 1))
      with (S (Z.to_nat (rfind SLASH s + 1))) by lia.
    reflexivity.
  - destruct (x =? SLASH)%N; reflexivity.
Qed.

Lemma basename_no_slash p : ~ In SLASH (OsPath.basename p).
Proof.
  induction p as [|x p IH]; [simpl; tauto|]. rewrite basename_cons.
  pose proof (rfind_lower_bound SLASH p) as L.
  destruct (0 <=? rfind SLASH p)%Z eqn:E; [exact IH|].
  apply Z.leb_gt in E.
  assert (Hp : ~ In SLASH p) by (apply rfind_absent; lia).
  destruct (x =? SLASH)%N eqn:Ex; [exact Hp|].
  intros [->|H]; [rewrite N.eqb_refl in Ex; discriminate | tauto].
Qed.

Lemma basename_fixed p : ~ In SLASH p -> OsPath.basename p = p.
Proof.
  intros H. unfold OsPath.basename. rewrite (absent_rfind _ _ H).
  reflexivity.
Qed.

Lemma basename_idem p :
  OsPath.basename (OsPath.basename p) = OsPath.basename p.
Proof. apply basename_fixed, basename_no_slash. Qed.

Section CleanFilenames.

Variable Chunk : Type.
Implicit Types (h : Store Chunk) (a b : addr) (m : MetaRecord Chunk).

Lemma clean_one_filename h a b :
  filename (clean_one h a b) =
  if Nat.eqb b a then option_map OsPath.basename (filename (h b))
  else filename (h b).
Proof.
  unfold clean_one. destruct (Nat.eqb b a) eqn:E.
  - apply Nat.eqb_eq in E. subst b.
    destruct (filename (h a)) as [[|c f]|] eqn:F.
    + rewrite F. reflexivity.
    + unfold store_set. rewrite Nat.eqb_refl. reflexivity.
    + rewrite F. reflexivity.
  - destruct (filename (h a)) as [[|c f]|]; try reflexivity.
    unfold store_set. rewrite E. reflexivity.
Qed.

Lemma clean_filenames_filename metadata :
  forall h b,
    filename (clean_filenames h metadata b) =
    if existsb (Nat.eqb b) metadata
    then option_map OsPath.basename (filename (h b))
    else filename (h b).
Proof.
  unfold clean_filenames.
  induction metadata as [|a l IH]; intros h b; [reflexivity|].
  cbn [fold_left existsb]. rewrite IH, clean_one_filename.
  destruct (Nat.eqb b a), (existsb (Nat.eqb b) l); cbn [orb];
    try reflexivity.
  destruct (filename (h b)) as [f|]; [|reflexivity].
  cbn [option_map]. rewrite basename_idem. reflexivity.
Qed.

Lemma existsb_eqb_In b (l : list addr) :
  In b l -> existsb (Nat.eqb b) l = true.
Proof.
  intros H. apply existsb_exists. exists b.
  split; [exact H | apply Nat.eqb_refl].
Qed.

(** C10: the build replaces the file name of every metadata record by its
    base name before the records are written, so no written file name has
    a directory part, and taking the base name again, as the serving side
    does, changes nothing. *)
Theorem persisted_filenames_are_basenames
        (h : Store Chunk) (metadata : list addr) :
  (forall a, In a metadata ->
     filename (clean_filenames h metadata a) =
     option_map OsPath.basename (filename (h a))) /\
  (forall m f, In m (main_step5 h metadata) -> filename m = Some f ->
     ~ In SLASH f /\ OsPath.basename f = f).
Proof.
  split.
  - intros a Ha. rewrite clean_filenames_filename, existsb_eqb_In by exact Ha.
    reflexivity.
  - intros m f Hm Hf. unfold main_step5, persisted in Hm.
    apply in_map_iff in Hm as (a & <- & Ha).
    rewrite clean_filenames_filename, existsb_eqb_In in Hf by exact Ha.
    destruct (filename (h a)) as [f0|]; [|discriminate].
    injection Hf as <-.
    split; [apply basename_no_slash | apply basename_idem].
Qed.

End CleanFilenames.

(** Two records, the first listed twice. *)
Definition two_records : Store unit :=
  fun a =>
    match a with
    | 0 => {| filename := Some (lit "data/brochures/otite.pdf"); rest := tt |}
    | _ => {| filename := None; rest := tt |}
    end.

Lemma persisted_filenames_are_basenames_witness :
  In {| filename := Some (lit "otite.pdf"); rest := tt |}
     (main_step5 two_records [0; 1; 0]) /\
  ~ In SLASH (lit "otite.pdf") /\
  OsPath.basename (lit "otite.pdf") = lit "otite.pdf".
Proof.
  assert (H : In {| filename := Some (lit "otite.pdf"); rest := tt |}
                 (main_step5 two_records [0; 1; 0]))
    by (left; reflexivity).
  split; [exact H|].
  exact (proj2 (persisted_filenames_are_basenames unit two_records [0; 1; 0])
               _ (lit "otite.pdf") H eq_refl).
Defined.

End BuildFacts.

(* ===================================================================== *)
(** ** Loading the index *)
(* ===================================================================== *)

Module AppFacts.
Import PyStr App.

(** Modelled after the words of the specification of the load: a load
    that succeeds has as many vector rows as metadata records. *)
Definition counts_checked (Row Meta : Type) : Prop :=
  forall (fs : FileSystem Row Meta) (st : SessionState Row Meta)
         (emb : list Row) (meta : list Meta),
    fst (load_vector_store fs st) = true ->
    embeddings (snd (load_vector_store fs st)) = Some emb ->
    metadata (snd (load_vector_store fs st)) = Some meta ->
    length emb = length meta.

(** Two vector rows and one metadata record. *)
Definition mismatched : FileSystem (list Z) nat :=
  {| EMB_PATH := Loads [[1; 0]%Z; [0; 1]%Z];
     META_PATH := Loads [7] |}.

(** C1, as the specification words it, fails: the loader accepts two
    vector rows with one metadata record and marks the index ready. *)
Example load_accepts_mismatched_counts :
  load_vector_store mismatched initial_state =
  (true,
   {| embeddings := Some [[1; 0]%Z; [0; 1]%Z];
      metadata := Some [7];
      index_ready := true;
      errors := [] |}) /\
  ~ counts_checked (list Z) nat.
Proof.
  split; [reflexivity|]. intros H.
  specialize (H mismatched initial_state [[1; 0]%Z; [0; 1]%Z] [7]
                eq_refl eq_refl eq_refl).
  discriminate.
Qed.

(** C1 (amended): the load succeeds exactly when both files are there and
    both can be read; it then installs the vectors and the metadata and
    marks the index ready, whatever their two counts are; otherwise it
    fails as a unit: it reports one error and leaves the vectors, the
    metadata and the ready flag of the session as they were. *)
Theorem load_vector_store_unit (Row Meta : Type)
        (fs : FileSystem Row Meta) (st : SessionState Row Meta) :
  match EMB_PATH fs, META_PATH fs with
  | Loads emb, Loads meta =>
    load_vector_store fs st =
    (true,
     {| embeddings := Some emb; metadata := Some meta;
        index_ready := true; errors := errors st |})
  | _, _ =>
    exists msg,
      load_vector_store fs st = (false, st_error msg st) /\
      embeddings (st_error msg st) = embeddings st /\
      metadata (st_error msg st) = metadata st /\
      index_ready (st_error msg st) = index_ready st
  end.
Proof.
  unfold load_vector_store, try_load.
  destruct (EMB_PATH fs) as [|e|emb], (META_PATH fs) as [|e'|meta];
    cbn [exists_ negb orb]; try reflexivity;
    eexists; (split; [reflexivity | repeat split]).
Qed.

End AppFacts.

(* ===================================================================== *)
(** ** More on sentences: [_split_sentences], [_filter_sentences] *)
(* ===================================================================== *)

Module SentenceFacts.
Import PyStr PyStrFacts SolidFacts Pipeline CleanFacts LoopFacts SummaryFacts.

(** A part of a split never holds the separator. *)
Lemma split_no_sep sep s p : In p (split sep s) -> ~ In sep p.
Proof.
  revert p. induction s as [|c s IH]; intros p; cbn [split].
  - intros [<-|[]]. simpl. tauto.
  - destruct (c =? sep)%N eqn:E.
    + intros [<-|H]; [simpl; tauto | apply IH, H].
    + destruct (split sep s) as [|q qs].
      * intros [<-|[]]. intros [->|[]]. rewrite N.eqb_refl in E. discriminate.
      * intros [<-|H]; [|apply IH; right; exact H].
        intros [->|H]; [rewrite N.eqb_refl in E; discriminate|].
        apply (IH q); [left; reflexivity | exact H].
Qed.

(** The characters of the parts are characters of the text. *)
Lemma split_incl sep s p : In p (split sep s) -> incl p s.
Proof.
  revert p. induction s as [|c s IH]; intros p; cbn [split].
  - intros [<-|[]]. apply incl_refl.
  - destruct (c =? sep)%N.
    + intros [<-|H]; [apply incl_nil_l | apply incl_tl, IH, H].
    + destruct (split sep s) as [|q qs].
      * intros [<-|[]]. intros x [->|[]]. left; reflexivity.
      * intros [<-|H]; [|apply incl_tl, IH; right; exact H].
        intros x [->|Hx]; [left; reflexivity|].
        right. apply (IH q); [left; reflexivity | exact Hx].
Qed.

Lemma clean_text_twice x : _clean_text (_clean_text x) = _clean_text x.
Proof.
  rewrite (clean_text_one_pass (_clean_text x)).
  replace (map to_space (_clean_text x)) with (_clean_text x).
  - rewrite squeeze_fixed by apply clean_text_single_spaced.
    apply clean_text_stripped.
  - rewrite <- (map_id (_clean_text x)) at 1. apply map_ext_in.
    intros c Hc. symmetry. apply (clean_text_chars x c Hc).
Qed.

(** X1: every sentence that [_split_sentences] returns is non-empty, has
    no white space at either end, holds no period, and is made of
    characters of the cleaned text. *)
Theorem split_sentences_shape (text : str) :
  Forall (fun s => s <> [] /\ strip s = s /\ ~ In DOT s /\
                   incl s (_clean_text text))
         (_split_sentences text).
Proof.
  pose proof (split_sentences_Solid text) as HS.
  rewrite Forall_forall in *. intros s Hs.
  pose proof (HS s Hs) as Hsolid.
  split; [apply Hsolid|]. split; [apply Solid_fixed, Hsolid|].
  rewrite split_sentences_filter in Hs.
  apply in_map_iff in Hs as (p & <- & Hp). apply filter_In in Hp as [Hp _].
  split.
  - intros H. apply strip_incl in H. exact (split_no_sep _ _ _ Hp H).
  - eapply incl_tran; [apply strip_incl | apply (split_incl _ _ _ Hp)].
Qed.

Section WithCaseMapping.

Variable lower : str -> str.

(** X2: sentences and summaries are the same for a text and for its
    cleaned form. *)
Theorem summarize_after_clean (text : str) (max_sentences : Z) :
  _split_sentences (_clean_text text) = _split_sentences text /\
  _summarize_snippet lower (_clean_text text) max_sentences =
  _summarize_snippet lower text max_sentences.
Proof.
  assert (H : _split_sentences (_clean_text text) = _split_sentences text).
  { rewrite !split_sentences_filter, clean_text_twice. reflexivity. }
  split; [exact H|]. unfold _summarize_snippet. rewrite H. reflexivity.
Qed.

Lemma kept_sentence_strip s :
  kept_sentence lower (strip s) = kept_sentence lower s.
Proof. unfold kept_sentence. rewrite strip_idem. reflexivity. Qed.

Lemma filter_kept_strip l :
  filter (kept_sentence lower) (map strip l) =
  map strip (filter (kept_sentence lower) l).
Proof.
  induction l as [|s l IH]; [reflexivity|]. cbn [map filter].
  rewrite kept_sentence_strip, IH.
  destruct (kept_sentence lower s); reflexivity.
Qed.

Lemma filter_twice {A} (p : A -> bool) l :
  filter p (filter p l) = filter p l.
Proof.
  induction l as [|x l IH]; [reflexivity|]. cbn [filter].
  destruct (p x) eqn:E; [|exact IH]. cbn [filter]. rewrite E, IH.
  reflexivity.
Qed.

(** X3: every sentence that [_filter_sentences] keeps is stripped, has at
    least 30 characters and passes the three pattern tests; the kept
    sentences are, in order, stripped sentences of the input. *)
Theorem filter_sentences_kept (sentences : list str) :
  Forall (fun s => 30 <= length s /\ strip s = s /\
                   kept_sentence lower s = true /\
                   In s (map strip sentences))
         (_filter_sentences lower sentences) /\
  length (_filter_sentences lower sentences) <= length sentences.
Proof.
  rewrite filter_sentences_filter. split.
  - apply Forall_forall. intros s Hs.
    apply in_map_iff in Hs as (p & <- & Hp).
    apply filter_In in Hp as [Hin Hk].
    split; [|split; [apply strip_idem | split]].
    + unfold kept_sentence in Hk. cbv zeta in Hk.
      destruct (length (strip p) <? 30) eqn:E; [discriminate|].
      apply Nat.ltb_ge in E. exact E.
    + rewrite kept_sentence_strip. exact Hk.
    + apply in_map, Hin.
  - rewrite length_map. apply filter_length_le.
Qed.

(** X4: filtering twice is filtering once. *)
Theorem filter_sentences_idempotent (sentences : list str) :
  _filter_sentences lower (_filter_sentences lower sentences) =
  _filter_sentences lower sentences.
Proof.
  rewrite !filter_sentences_filter, filter_kept_strip, filter_twice, map_map.
  apply map_ext. intros s. apply strip_idem.
Qed.

(** X5: a sentence is kept or dropped on its own: filtering two lists one
    after the other is filtering their concatenation. *)
Theorem filter_sentences_app (a b : list str) :
  _filter_sentences lower (a ++ b) =
  _filter_sentences lower a ++ _filter_sentences lower b.
Proof.
  rewrite !filter_sentences_filter, filter_app, map_app. reflexivity.
Qed.

End WithCaseMapping.

End SentenceFacts.

(* ===================================================================== *)
(** ** More on summaries: [_summarize_snippet] *)
(* ===================================================================== *)

Module SummaryShape.
Import PyStr PyStrFacts SolidFacts Pipeline CleanFacts LoopFacts SummaryFacts
       SentenceFacts.

(** What the sentences of a cleaned text are like. *)
Definition Good (s : str) : Prop :=
  Solid s /\ ~ In DOT s /\ (forall c, In c s -> to_space c = c) /\
  single_spaced s = true.

Lemma split_head sep s q qs :
  split sep s = q :: qs -> head_is_space q = true -> head_is_space s = true.
Proof.
  destruct s as [|c s]; cbn [split].
  - intros H; injection H as <- _. discriminate.
  - destruct (c =? sep)%N.
    + intros H; injection H as <- _. discriminate.
    + destruct (split sep s); intros H; injection H as <- _; exact (fun H => H).
Qed.

Lemma single_spaced_split sep s :
  single_spaced s = true ->
  forall p, In p (split sep s) -> single_spaced p = true.
Proof.
  induction s as [|c s IH]; intros Hs p; cbn [split].
  - intros [<-|[]]. reflexivity.
  - cbn [single_spaced] in Hs. apply andb_true_iff in Hs as [H1 H2].
    destruct (c =? sep)%N.
    + intros [<-|H]; [reflexivity | apply (IH H2), H].
    + destruct (split sep s) as [|q qs] eqn:E.
      * intros [<-|[]]. cbn [single_spaced head_is_space].
        rewrite andb_false_r. reflexivity.
      * intros [<-|H]; [|apply (IH H2); right; exact H].
        cbn [single_spaced]. rewrite (IH H2 q) by (left; reflexivity).
        rewrite andb_true_r. destruct (head_is_space q) eqn:Eq.
        -- rewrite (split_head _ _ _ _ E Eq) in H1. exact H1.
        -- rewrite andb_false_r. reflexivity.
Qed.

Lemma slice_to_Forall {A} (P : A -> Prop) n (l : list A) :
  Forall P l -> Forall P (slice_to n l).
Proof.
  intros H. unfold slice_to. destruct (0 <=? n)%Z; apply Forall_firstn, H.
Qed.

Lemma split_sentences_Good text : Forall Good (_split_sentences text).
Proof.
  pose proof (split_sentences_Solid text) as HS.
  rewrite Forall_forall in *. intros s Hs. pose proof (HS s Hs) as Hsolid.
  rewrite split_sentences_filter in Hs.
  apply in_map_iff in Hs as (p & <- & Hp). apply filter_In in Hp as [Hp _].
  split; [exact Hsolid|]. split; [|split].
  - intros H. apply strip_incl in H. exact (split_no_sep _ _ _ Hp H).
  - intros c Hc. apply (clean_text_chars text).
    apply (split_incl _ _ _ Hp), strip_incl, Hc.
  - apply single_spaced_strip.
    apply (single_spaced_split DOT _ (clean_text_single_spaced text) p Hp).
Qed.

Section WithCaseMapping.

Variable lower : str -> str.

(** The sentences that pass the filter are sentences of the input when
    these are stripped already. *)
Lemma filter_sentences_of_stripped sentences :
  Forall Solid sentences ->
  _filter_sentences lower sentences =
  filter (kept_sentence lower) sentences.
Proof.
  intros H. rewrite filter_sentences_filter.
  rewrite <- (map_id (filter _ sentences)) at 2. apply map_ext_in.
  intros s Hs. apply filter_In in Hs as [Hs _].
  rewrite Forall_forall in H. apply Solid_fixed, H, Hs.
Qed.

Lemma survivors_Good text :
  Forall Good (_filter_sentences lower (_split_sentences text)).
Proof.
  rewrite filter_sentences_of_stripped by apply split_sentences_Solid.
  pose proof (split_sentences_Good text) as H.
  rewrite Forall_forall in *. intros s Hs.
  apply filter_In in Hs as [Hs _]. apply H, Hs.
Qed.

End WithCaseMapping.

(** *** A joined list of sentences with its final period *)

Lemma endswith_last s c d : endswith (s ++ [c]) [d] = (c =? d)%N.
Proof.
  unfold endswith. rewrite rev_app_distr. cbn [rev app startswith].
  rewrite startswith_nil, andb_true_r. reflexivity.
Qed.

Lemma Solid_last s : Solid s -> exists r c, s = r ++ [c] /\ isspace c = false.
Proof.
  intros (Hne & _ & Hr). destruct (rstrip_last s) as [H|(r & c & H & Hc)].
  - rewrite Hr in H. contradiction.
  - rewrite Hr in H. eauto.
Qed.

Lemma Solid_first s : Solid s -> exists c t, s = c :: t /\ isspace c = false.
Proof.
  intros (Hne & Hl & _). destruct s as [|c t]; [contradiction|].
  exists c, t. split; [reflexivity|]. exact (lstrip_head _ _ _ Hl).
Qed.

Lemma join_last sep kept :
  kept <> [] -> Forall Good kept ->
  exists pre c, join sep kept = pre ++ [c] /\ c <> DOT.
Proof.
  induction kept as [|s kept IH]; [contradiction|]. intros _ H.
  inversion H as [|? ? Hs Hk]; subst. destruct kept as [|q kept].
  - destruct Hs as (Hsolid & Hdot & _).
    destruct (Solid_last s Hsolid) as (r & c & -> & _).
    exists r, c. split; [reflexivity|]. intros ->. apply Hdot.
    apply in_or_app. right. left. reflexivity.
  - destruct (IH ltac:(discriminate) Hk) as (pre & c & E & Hc).
    exists (s ++ sep ++ pre), c. split; [|exact Hc].
    change (join sep (s :: q :: kept)) with (s ++ sep ++ join sep (q :: kept)).
    rewrite E, <- !app_assoc. reflexivity.
Qed.

Lemma join_no_final_period sep kept :
  Forall Good kept -> endswith (join sep kept) [DOT] = false.
Proof.
  intros H. destruct kept as [|s kept]; [reflexivity|].
  destruct (join_last sep (s :: kept) ltac:(discriminate) H)
    as (pre & c & -> & Hc).
  rewrite endswith_last. apply N.eqb_neq. exact Hc.
Qed.

Lemma Good_Solid kept : Forall Good kept -> Forall Solid kept.
Proof. apply Forall_impl. intros s H. apply H. Qed.

(** The blocks of a summary: each sentence with its period, the later ones
    with the space that follows the period before them. *)
Definition blocks (kept : list str) : list str :=
  match kept with
  | [] => []
  | s :: rest => s :: map (cons SP) rest
  end.

Definition with_period (p : str) : str := p ++ [DOT].

Lemma join_blocks s rest :
  join [DOT; SP] (s :: rest) ++ [DOT] =
  flat_map with_period (blocks (s :: rest)).
Proof.
  revert s. induction rest as [|q rest IH]; intros s.
  - cbn. rewrite app_nil_r. reflexivity.
  - change (join [DOT; SP] (s :: q :: rest))
      with (s ++ [DOT; SP] ++ join [DOT; SP] (q :: rest)).
    rewrite <- !app_assoc, IH. unfold blocks, with_period.
    cbn [map flat_map app]. rewrite <- !app_assoc. reflexivity.
Qed.

Lemma split_app_sep sep a b :
  ~ In sep a -> split sep (a ++ sep :: b) = a :: split sep b.
Proof.
  induction a as [|c a IH]; intros H.
  - cbn [app split]. rewrite N.eqb_refl. reflexivity.
  - cbn [app split]. destruct (c =? sep)%N eqn:E.
    + apply N.eqb_eq in E. subst c. exfalso. apply H. left. reflexivity.
    + rewrite IH by (intros Hin; apply H; right; exact Hin). reflexivity.
Qed.

Lemma split_blocks ps :
  Forall (fun p => ~ In DOT p) ps ->
  split DOT (flat_map with_period ps) = ps ++ [[]].
Proof.
  induction 1 as [|p ps Hp _ IH]; [reflexivity|].
  cbn [flat_map]. unfold with_period at 1. rewrite <- app_assoc.
  cbn [app]. rewrite split_app_sep by exact Hp. rewrite IH. reflexivity.
Qed.

Lemma Good_not_space c t : Solid (c :: t) -> (c =? SP)%N = false.
Proof.
  intros H. destruct (Solid_first _ H) as (c' & t' & E & Hc).
  injection E as <- <-. apply N.eqb_neq. intros ->. discriminate.
Qed.

Lemma single_spaced_app_period a b :
  single_spaced (a ++ DOT :: b) = single_spaced a && single_spaced b.
Proof.
  induction a as [|c a IH]; [reflexivity|].
  cbn [app single_spaced]. rewrite IH, andb_assoc. f_equal. f_equal. f_equal.
  f_equal. destruct a; reflexivity.
Qed.

Lemma blocks_single_spaced ps :
  Forall (fun p => single_spaced p = true) ps ->
  single_spaced (flat_map with_period ps) = true.
Proof.
  induction 1 as [|p ps Hp _ IH]; [reflexivity|].
  cbn [flat_map]. unfold with_period at 1. rewrite <- app_assoc.
  cbn [app]. rewrite single_spaced_app_period, Hp, IH. reflexivity.
Qed.

Lemma blocks_of_Good kept :
  Forall Good kept ->
  Forall (fun p => ~ In DOT p /\ single_spaced p = true /\
                   (forall c, In c p -> to_space c = c))
         (blocks kept).
Proof.
  intros H. destruct kept as [|s rest]; [constructor|].
  inversion H as [|? ? Hs Hrest]; subst. cbn [blocks]. constructor.
  - destruct Hs as (_ & Hd & Hc & Hsp). auto.
  - apply Forall_forall. intros p Hp. apply in_map_iff in Hp as (q & <- & Hq).
    rewrite Forall_forall in Hrest.
    destruct (Hrest q Hq) as (Hsolid & Hd & Hc & Hsp).
    split; [|split].
    + intros [E|Hin]; [discriminate | exact (Hd Hin)].
    + destruct q as [|c t]; [reflexivity|].
      change (single_spaced (SP :: c :: t))
        with (negb ((SP =? SP)%N && (c =? SP)%N) && single_spaced (c :: t)).
      rewrite (Good_not_space c t Hsolid), andb_false_r. exact Hsp.
    + intros c [<-|Hin]; [reflexivity | exact (Hc c Hin)].
Qed.

(** The sentences and their blocks, stripped. *)
Lemma strip_blocks kept :
  Forall Solid kept ->
  map strip (filter (fun p => 0 <? length (strip p)) (blocks kept ++ [[]]))
  = kept.
Proof.
  assert (Hsp : forall s, Solid s -> strip (SP :: s) = s).
  { intros s Hs. unfold strip. cbn [lstrip].
    change (isspace SP) with true. cbv iota.
    destruct Hs as (_ & -> & ->). reflexivity. }
  assert (Hlen : forall s, Solid s -> (0 <? length s) = true).
  { intros s (Hne & _). apply Nat.ltb_lt. destruct s; [contradiction|simpl; lia]. }
  intros H. destruct kept as [|s rest]; [reflexivity|].
  inversion H as [|? ? Hs Hrest]; subst.
  cbn [blocks app filter]. rewrite (Solid_fixed s Hs), (Hlen s Hs).
  cbn [map]. rewrite (Solid_fixed s Hs). f_equal. clear H.
  induction Hrest as [|q rest Hq _ IH]; [reflexivity|].
  cbn [map app filter]. rewrite (Hsp q Hq), (Hlen q Hq).
  cbn [map]. rewrite (Hsp q Hq), IH. reflexivity.
Qed.

Lemma Solid_period : Solid [DOT].
Proof. split; [discriminate|]. split; reflexivity. Qed.

(** The text of a summary is clean already. *)
Lemma clean_summary_text kept :
  Forall Good kept ->
  _clean_text (join [DOT; SP] kept ++ [DOT]) = join [DOT; SP] kept ++ [DOT].
Proof.
  intros H. destruct kept as [|s rest]; [reflexivity|].
  assert (HJ : Solid (join [DOT; SP] (s :: rest)))
    by (apply Solid_join; [discriminate | apply Good_Solid, H]).
  pose proof (blocks_of_Good _ H) as HB.
  rewrite clean_text_one_pass.
  replace (map to_space (join [DOT; SP] (s :: rest) ++ [DOT]))
    with (join [DOT; SP] (s :: rest) ++ [DOT]).
  - rewrite squeeze_fixed.
    + apply Solid_fixed, (Solid_app _ [] [DOT] HJ), Solid_period.
    + rewrite join_blocks. apply blocks_single_spaced.
      revert HB. apply Forall_impl. tauto.
  - rewrite <- (map_id (join [DOT; SP] (s :: rest) ++ [DOT])) at 1.
    apply map_ext_in. intros c Hc. symmetry. rewrite join_blocks in Hc.
    apply in_flat_map in Hc as (p & Hp & Hc).
    rewrite Forall_forall in HB. destruct (HB p Hp) as (_ & _ & Hchars).
    unfold with_period in Hc. apply in_app_or in Hc as [Hc|[<-|[]]];
      [exact (Hchars c Hc) | reflexivity].
Qed.

(** The sentences of a summary are the kept ones. *)
Lemma split_sentences_of_summary kept :
  Forall Good kept ->
  _split_sentences (join [DOT; SP] kept ++ [DOT]) = kept.
Proof.
  intros H. rewrite split_sentences_filter, clean_summary_text by exact H.
  destruct kept as [|s rest]; [reflexivity|].
  rewrite join_blocks, split_blocks.
  - apply strip_blocks, Good_Solid, H.
  - pose proof (blocks_of_Good _ H) as HB. revert HB.
    apply Forall_impl. tauto.
Qed.

Section Summaries.

Variable lower : str -> str.

(** A summary is the kept sentences joined, with one final period. *)
Lemma summarize_snippet_form text max_sentences :
  _filter_sentences lower (_split_sentences text) <> [] ->
  _summarize_snippet lower text max_sentences =
  join [DOT; SP]
       (slice_to max_sentences
                 (_filter_sentences lower (_split_sentences text)))
  ++ [DOT].
Proof.
  intros Hne. unfold _summarize_snippet. cbv zeta.
  pose proof (survivors_Good lower text) as HG.
  destruct (_filter_sentences lower (_split_sentences text)) as [|s l] eqn:E;
    [contradiction|].
  change (lit ". ") with [DOT; SP]. change (lit ".") with [DOT].
  pose proof (slice_to_Forall Good max_sentences _ HG) as HK.
  rewrite strip_join by (apply Good_Solid, HK).
  rewrite join_no_final_period by exact HK. reflexivity.
Qed.

(** X6: a summary that is not empty ends with a period and has no white
    space at either end, whatever [max_sentences] is. *)
Theorem summarize_snippet_shape (text : str) (max_sentences : Z) :
  _summarize_snippet lower text max_sentences = [] \/
  (endswith (_summarize_snippet lower text max_sentences) (lit ".") = true /\
   strip (_summarize_snippet lower text max_sentences)
   = _summarize_snippet lower text max_sentences).
Proof.
  destruct (_filter_sentences lower (_split_sentences text)) as [|s l] eqn:E.
  - left. apply summarize_snippet_empty. exact E.
  - right. rewrite summarize_snippet_form by (rewrite E; discriminate).
    rewrite E. change (lit ".") with [DOT]. split.
    + rewrite endswith_last. apply N.eqb_refl.
    + pose proof (survivors_Good lower text) as HG. rewrite E in HG.
      pose proof (slice_to_Forall Good max_sentences _ HG) as HK.
      destruct (slice_to max_sentences (s :: l)) as [|k ks] eqn:Ek;
        [reflexivity|].
      apply Solid_fixed. apply (Solid_app _ [] [DOT]); [|apply Solid_period].
      apply Solid_join; [discriminate | apply Good_Solid, HK].
Qed.

(** X7: splitting a summary into sentences gives back the sentences it
    was made of, the slice [survivors[:max_sentences]]. *)
Theorem split_sentences_summarize (text : str) (max_sentences : Z) :
  _split_sentences (_summarize_snippet lower text max_sentences) =
  slice_to max_sentences (_filter_sentences lower (_split_sentences text)).
Proof.
  destruct (_filter_sentences lower (_split_sentences text)) as [|s l] eqn:E.
  - rewrite (proj2 (summarize_snippet_empty lower text max_sentences) E).
    unfold slice_to. destruct (0 <=? max_sentences)%Z;
      rewrite firstn_nil; reflexivity.
  - rewrite summarize_snippet_form by (rewrite E; discriminate).
    rewrite E. apply split_sentences_of_summary.
    apply slice_to_Forall. rewrite <- E. apply survivors_Good.
Qed.

(** X8: summarising a summary again, with room for at least one sentence,
    changes nothing. *)
Theorem summarize_snippet_idempotent (text : str) (max_sentences : Z)
        (Hroom : (1 <= max_sentences)%Z) :
  _summarize_snippet lower
    (_summarize_snippet lower text max_sentences) max_sentences =
  _summarize_snippet lower text max_sentences.
Proof.
  destruct (_filter_sentences lower (_split_sentences text)) as [|s l] eqn:E.
  - rewrite (proj2 (summarize_snippet_empty lower text max_sentences) E).
    reflexivity.
  - pose proof (survivors_Good lower text) as HG. rewrite E in HG.
    assert (Hsplit :
      _split_sentences (_summarize_snippet lower text max_sentences) =
      firstn (Z.to_nat max_sentences) (s :: l)).
    { rewrite summarize_snippet_form by (rewrite E; discriminate).
      rewrite E. unfold slice_to.
      replace (0 <=? max_sentences)%Z with true
        by (symmetry; apply Z.leb_le; lia).
      apply split_sentences_of_summary, Forall_firstn, HG. }
    assert (Hkeep :
      _filter_sentences lower (firstn (Z.to_nat max_sentences) (s :: l)) =
      firstn (Z.to_nat max_sentences) (s :: l)).
    { rewrite filter_sentences_of_stripped
        by (apply Forall_firstn, Good_Solid, HG).
      apply forallb_filter_id. apply forallb_forall. intros x Hx.
      assert (Hx' : In x (s :: l))
        by (rewrite <- (firstn_skipn (Z.to_nat max_sentences) (s :: l));
            apply in_or_app; left; exact Hx).
      clear Hx. rename Hx' into Hx. rewrite <- E in Hx.
      rewrite filter_sentences_of_stripped in Hx
        by apply split_sentences_Solid.
      apply filter_In in Hx. tauto. }
    assert (Hne : firstn (Z.to_nat max_sentences) (s :: l) <> []).
    { destruct (Z.to_nat max_sentences) eqn:En; [lia | discriminate]. }
    rewrite (summarize_snippet_form
               (_summarize_snippet lower text max_sentences))
      by (rewrite Hsplit, Hkeep; exact Hne).
    rewrite Hsplit, Hkeep.
    rewrite (summarize_snippet_form text) by (rewrite E; discriminate).
    rewrite E. unfold slice_to.
    replace (0 <=? max_sentences)%Z with true
      by (symmetry; apply Z.leb_le; lia).
    rewrite firstn_firstn, Nat.min_id. reflexivity.
Qed.

End Summaries.

Lemma summarize_snippet_idempotent_witness :
  (1 <= 2)%Z /\
  _summarize_snippet Latin1.lower
    (_summarize_snippet Latin1.lower otite_text 2) 2 =
  _summarize_snippet Latin1.lower otite_text 2.
Proof.
  split; [lia|].
  apply (summarize_snippet_idempotent Latin1.lower otite_text 2). lia.
Defined.

End SummaryShape.

(* ===================================================================== *)
(** ** More on the merger: [_merge_snippets] *)
(* ===================================================================== *)

Module MergeShape.
Import PyStr PyStrFacts SolidFacts Pipeline MergeFacts.

Lemma total_nonneg l : (0 <= total l)%Z.
Proof.
  induction l as [|q l IH]; [simpl; lia|].
  cbn [total fold_right]. fold (total l). unfold cost. lia.
Qed.

Lemma total_cons p l : total (p :: l) = (cost p + total l)%Z.
Proof. reflexivity. Qed.

Lemma take_fit_more max_chars max_chars' l :
  (max_chars <= max_chars')%Z ->
  forall cur, exists ext,
    take_fit max_chars' cur l = take_fit max_chars cur l ++ ext.
Proof.
  intros Hle. induction l as [|s l IH]; intros cur.
  - exists []. reflexivity.
  - cbn [take_fit]. destruct (cur + cost s >? max_chars)%Z eqn:G.
    + eexists. reflexivity.
    + replace (cur + cost s >? max_chars')%Z with false
        by (symmetry; rewrite Z.gtb_ltb in *; apply Z.ltb_ge;
            apply Z.ltb_ge in G; lia).
      destruct (IH (cur + cost s)%Z) as (ext & ->).
      exists ext. reflexivity.
Qed.

Lemma join_app_prefix sep a ext :
  exists t, join sep (a ++ ext) = join sep a ++ t.
Proof.
  induction a as [|p a IH]; [exists (join sep ext); reflexivity|].
  destruct a as [|q a].
  - destruct ext as [|e ext]; [exists []; simpl; rewrite app_nil_r; reflexivity|].
    eexists. reflexivity.
  - destruct IH as (t & E). exists t.
    change (join sep ((p :: q :: a) ++ ext))
      with (p ++ sep ++ join sep ((q :: a) ++ ext)).
    change (join sep (p :: q :: a)) with (p ++ sep ++ join sep (q :: a)).
    rewrite E, <- !app_assoc. reflexivity.
Qed.

(** X9: a larger budget only adds to the merged text: the text merged
    under [max_chars] is the beginning of the text merged under any
    larger budget. *)
Theorem merge_snippets_monotone (snippets : list str)
        (max_chars max_chars' : Z)
        (Hle : (max_chars <= max_chars')%Z) :
  exists more,
    _merge_snippets snippets max_chars' =
    _merge_snippets snippets max_chars ++ more.
Proof.
  rewrite !merge_snippets_join.
  destruct (take_fit_more max_chars max_chars' (items snippets) Hle 0%Z)
    as (ext & ->).
  apply join_app_prefix.
Qed.

Lemma merge_snippets_monotone_witness :
  (4 <= 7)%Z /\
  exists more,
    _merge_snippets [lit "abc"; lit " de "] 7 =
    _merge_snippets [lit "abc"; lit " de "] 4 ++ more.
Proof.
  split; [lia|].
  apply (merge_snippets_monotone [lit "abc"; lit " de "] 4 7). lia.
Defined.

Lemma take_fit_all max_chars l :
  forall cur, (cur + total l <= max_chars)%Z -> take_fit max_chars cur l = l.
Proof.
  induction l as [|s l IH]; intros cur H; [reflexivity|].
  rewrite total_cons in H. pose proof (total_nonneg l) as Hl.
  cbn [take_fit].
  replace (cur + cost s >? max_chars)%Z with false
    by (symmetry; rewrite Z.gtb_ltb; apply Z.ltb_ge; lia).
  rewrite IH by lia. reflexivity.
Qed.

(** X10: when the stripped non-empty snippets, each counted with one
    separator, fit in the budget together, none is left out: the merged
    text is all of them joined by one space. *)
Theorem merge_snippets_all_fit (snippets : list str) (max_chars : Z)
        (Hfit : (total (items snippets) <= max_chars)%Z) :
  _merge_snippets snippets max_chars = join [SP] (items snippets).
Proof.
  rewrite merge_snippets_join, take_fit_all by lia. reflexivity.
Qed.

Lemma merge_snippets_all_fit_witness :
  (total (items [lit "abc"; lit " "; lit " de "]) <= 7)%Z /\
  _merge_snippets [lit "abc"; lit " "; lit " de "] 7 = lit "abc de".
Proof.
  assert (H : (total (items [lit "abc"; lit " "; lit " de "]) <= 7)%Z)
    by (vm_compute; discriminate).
  split; [exact H|].
  exact (merge_snippets_all_fit [lit "abc"; lit " "; lit " de "] 7 H).
Defined.

Lemma items_app a b : items (a ++ b) = items a ++ items b.
Proof. unfold items. rewrite map_app, filter_app. reflexivity. Qed.

(** X11: white space does not count: a snippet made only of white space
    can be put in or taken out anywhere, and the snippets can be stripped
    beforehand, without changing the merged text. *)
Theorem merge_snippets_blank (a b : list str) (w : str) (max_chars : Z)
        (Hblank : strip w = []) :
  _merge_snippets (a ++ w :: b) max_chars = _merge_snippets (a ++ b) max_chars
  /\ _merge_snippets (map strip (a ++ b)) max_chars
     = _merge_snippets (a ++ b) max_chars.
Proof.
  rewrite !merge_snippets_join. split.
  - rewrite !items_app. unfold items at 2. cbn [map filter].
    rewrite Hblank. reflexivity.
  - f_equal. f_equal. unfold items. rewrite map_map. f_equal.
    apply map_ext. intros s. apply strip_idem.
Qed.

Lemma merge_snippets_blank_witness :
  strip (lit "  ") = [] /\
  _merge_snippets ([lit "abc"] ++ lit "  " :: [lit "de"]) 7 =
  _merge_snippets ([lit "abc"] ++ [lit "de"]) 7.
Proof.
  split; [reflexivity|].
  exact (proj1 (merge_snippets_blank [lit "abc"] [lit "de"] (lit "  ") 7
                  eq_refl)).
Defined.

(** X12: the merged text is empty exactly when there is no non-blank
    snippet or the first one, counted with its separator, is over the
    budget; otherwise it begins with that snippet, stripped.  It never has
    white space at its ends. *)
Theorem merge_snippets_empty (snippets : list str) (max_chars : Z) :
  match items snippets with
  | [] => _merge_snippets snippets max_chars = []
  | first :: _ =>
    if (cost first >? max_chars)%Z
    then _merge_snippets snippets max_chars = []
    else exists more,
        _merge_snippets snippets max_chars = first ++ more /\ first <> []
  end /\
  strip (_merge_snippets snippets max_chars)
  = _merge_snippets snippets max_chars.
Proof.
  split.
  - rewrite merge_snippets_join. pose proof (items_Solid snippets) as HS.
    destruct (items snippets) as [|p l]; [reflexivity|].
    cbn [take_fit]. change (0 + cost p)%Z with (cost p).
    destruct (cost p >? max_chars)%Z; [reflexivity|].
    inversion HS as [|? ? Hp _]; subst.
    destruct (join_app_prefix [SP] [p] (take_fit max_chars (cost p) l))
      as (t & E).
    exists t. split; [exact E | apply Hp].
  - rewrite merge_snippets_join. apply strip_join, take_fit_Solid.
Qed.

End MergeShape.

(* ===================================================================== *)
(** ** More on topics: [_get_topic_keywords], [_filter_results_by_topic] *)
(* ===================================================================== *)

Module TopicShape.
Import PyStr Pipeline TopicFacts.

Lemma find_skip {A} (f : A -> bool) pre l :
  (forall x, In x pre -> f x = false) -> find f (pre ++ l) = find f l.
Proof.
  induction pre as [|x pre IH]; intros H; [reflexivity|].
  cbn [app find]. rewrite (H x) by (left; reflexivity).
  apply IH. intros y Hy. apply H. right. exact Hy.
Qed.

Lemma find_all_false {A} (f : A -> bool) l :
  (forall x, In x l -> f x = false) -> find f l = None.
Proof.
  intros H. rewrite <- (app_nil_r l), find_skip by exact H. reflexivity.
Qed.

Lemma TOPIC_RULES_tags : Forall (fun rule => snd rule <> []) TOPIC_RULES.
Proof. repeat constructor; discriminate. Qed.

Section WithCaseMapping.

Variable lower : str -> str.

(** X13: the rules are tried in their order: a rule that matches the
    lower-cased query gives the answer as soon as no rule before it
    matches, whatever the rules after it do. *)
Theorem get_topic_keywords_first_rule (query : str)
        (before after : list (list str * list str))
        (rule : list str * list str)
        (Htable : TOPIC_RULES = before ++ rule :: after)
        (Hbefore : forall r, In r before ->
                             rule_matches (lower query) r = false)
        (Hrule : rule_matches (lower query) rule = true) :
  _get_topic_keywords lower query = snd rule.
Proof.
  rewrite get_topic_keywords_first_match. unfold first_match.
  rewrite Htable, find_skip by exact Hbefore.
  cbn [find]. rewrite Hrule. reflexivity.
Qed.

(** X14: no topic is detected exactly when none of the trigger substrings
    of the table occurs in the lower-cased query. *)
Theorem get_topic_keywords_none (query : str) :
  _get_topic_keywords lower query = [] <->
  forall trigger, In trigger (concat (map fst TOPIC_RULES)) ->
                  contains trigger (lower query) = false.
Proof.
  rewrite get_topic_keywords_first_match. unfold first_match. split.
  - intros H trigger Ht.
    destruct (find (rule_matches (lower query)) TOPIC_RULES) as [rule|] eqn:E.
    + exfalso. apply find_some in E as [Hin _].
      pose proof TOPIC_RULES_tags as HT. rewrite Forall_forall in HT.
      exact (HT rule Hin H).
    + apply in_concat in Ht as (ts & Hts & Hin).
      apply in_map_iff in Hts as (rule & <- & Hrule).
      pose proof (find_none _ _ E rule Hrule) as Hm.
      unfold rule_matches in Hm.
      destruct (contains trigger (lower query)) eqn:Ec; [|reflexivity].
      assert (existsb (fun t => contains t (lower query)) (fst rule) = true)
        by (apply existsb_exists; exists trigger; tauto).
      congruence.
  - intros H. rewrite find_all_false; [reflexivity|].
    intros rule Hrule. unfold rule_matches.
    destruct (existsb _ (fst rule)) eqn:E; [|reflexivity].
    apply existsb_exists in E as (t & Ht & Hc).
    rewrite H in Hc; [discriminate|].
    apply in_concat. exists (fst rule). split; [|exact Ht].
    apply in_map, Hrule.
Qed.

Variable Score : Type.

Lemma filter_filter_same {A} (p : A -> bool) l :
  filter p (filter p l) = filter p l.
Proof.
  induction l as [|x l IH]; [reflexivity|]. cbn [filter].
  destruct (p x) eqn:E; [|exact IH]. cbn [filter]. rewrite E, IH.
  reflexivity.
Qed.

(** X15: topic filtering is idempotent: filtering its own output again,
    for the same query, changes nothing. *)
Theorem filter_results_by_topic_idempotent
        (results : list (QueryResult Score)) (query : str) :
  _filter_results_by_topic lower
    (_filter_results_by_topic lower results query) query =
  _filter_results_by_topic lower results query.
Proof.
  rewrite !filter_results_by_topic_cases.
  destruct (_get_topic_keywords lower query) as [|kw kws]; [reflexivity|].
  destruct (filter (names_topic lower (kw :: kws)) results) as [|m ms] eqn:E.
  - rewrite E. reflexivity.
  - rewrite <- E, filter_filter_same, E. reflexivity.
Qed.

(** X16: topic filtering only selects: its output is the input or the
    matching results of the input, so it never invents, repeats or
    reorders a result and never returns more than it was given. *)
Theorem filter_results_by_topic_selects
        (results : list (QueryResult Score)) (query : str) :
  (exists keep : QueryResult Score -> bool,
      _filter_results_by_topic lower results query = filter keep results) /\
  length (_filter_results_by_topic lower results query) <= length results /\
  (_filter_results_by_topic lower results query = [] <-> results = []).
Proof.
  rewrite filter_results_by_topic_cases.
  assert (Hall : filter (fun _ : QueryResult Score => true) results = results).
  { apply forallb_filter_id, forallb_forall. reflexivity. }
  destruct (_get_topic_keywords lower query) as [|kw kws].
  - split; [exists (fun _ => true); symmetry; exact Hall|].
    split; [lia | tauto].
  - destruct (filter (names_topic lower (kw :: kws)) results) as [|m ms] eqn:E.
    + split; [exists (fun _ => true); symmetry; exact Hall|].
      split; [lia | tauto].
    + split; [exists (names_topic lower (kw :: kws)); symmetry; exact E|].
      split.
      * rewrite <- E. apply filter_length_le.
      * split; [discriminate|]. intros ->. discriminate.
Qed.

End WithCaseMapping.

Lemma get_topic_keywords_first_rule_witness :
  TOPIC_RULES = firstn 7 TOPIC_RULES ++
                ([lit "diabète"; lit "diabete"], [lit "diabete"])
                :: skipn 8 TOPIC_RULES /\
  _get_topic_keywords Latin1.lower
    (lit "Quel régime pour le DIABÈTE et la migraine ?") = [lit "diabete"].
Proof.
  split; [reflexivity|].
  refine (get_topic_keywords_first_rule Latin1.lower
            (lit "Quel régime pour le DIABÈTE et la migraine ?")
            (firstn 7 TOPIC_RULES) (skipn 8 TOPIC_RULES)
            ([lit "diabète"; lit "diabete"], [lit "diabete"])
            eq_refl _ eq_refl).
  intros r Hr. cbn [firstn TOPIC_RULES In] in Hr.
  repeat (destruct Hr as [<-|Hr]; [vm_compute; reflexivity|]).
  destruct Hr.
Defined.

End TopicShape.

(* ===================================================================== *)
(** ** More on the composer: [answer_question_extractive] *)
(* ===================================================================== *)

Module AnswerShape.
Import PyStr PyStrFacts SolidFacts Pipeline CleanFacts MergeFacts
       SummaryFacts SentenceFacts SummaryShape AnswerFacts.

Definition INTRO : str :=
  lit "Voici une réponse basée sur les brochures disponibles concernant votre question :".

Definition DISCLAIMER : str :=
  lit "Ce résumé est directement élaboré à partir des brochures. "
  ++ lit "Il fournit une information générale et ne remplace **en aucun cas** l’avis d’un professionnel de santé.".

Lemma items_nonempty l : items (filter nonempty l) = items l.
Proof.
  unfold items. induction l as [|x l IH]; [reflexivity|].
  destruct x as [|c t]; cbn [filter nonempty map]; [exact IH|].
  destruct (nonempty (strip (c :: t))); rewrite IH; reflexivity.
Qed.

Lemma merge_nonempty_only l max_chars :
  _merge_snippets (filter nonempty l) max_chars = _merge_snippets l max_chars.
Proof. rewrite !merge_snippets_join, items_nonempty. reflexivity. Qed.

Lemma merge_length_below snippets max_chars :
  _merge_snippets snippets max_chars = [] \/
  (Z.of_nat (length (_merge_snippets snippets max_chars)) <= max_chars - 1)%Z.
Proof.
  rewrite merge_snippets_join.
  destruct (take_fit max_chars 0 (items snippets)) as [|p l] eqn:E;
    [left; reflexivity | right].
  rewrite join_space_length by discriminate.
  destruct (take_fit_total max_chars (items snippets) 0%Z) as [H|H];
    rewrite E in H; [discriminate | lia].
Qed.

Section Composer.

Variable lower : str -> str.
Variable Score : Type.
Variable zero_score : Score.
Variables Embeddings Metadata : Type.
Variable retrieve_top_k :
  str -> Embeddings -> Metadata -> Z -> list (QueryResult Score).

Abbreviation source_of := (source_of lower Score zero_score).
Abbreviation retained := (retained lower Score Embeddings Metadata retrieve_top_k).
Abbreviation answer_of :=
  (answer_question_extractive lower zero_score retrieve_top_k).

(** The text between the introduction and the disclaimer, from the
    sources shown with the answer. *)
Definition body_of (srcs : list (Source Score)) : str :=
  match _merge_snippets (map src_snippet srcs) 900 with
  | [] => NOT_REFORMULATED
  | combined_text => combined_text
  end.

Lemma process_results_snippets max_chunk_chars results :
  forall st,
    fst (fold_left (process_result lower zero_score max_chunk_chars)
                   results st) =
    fst st ++
    filter nonempty
      (map (fun r => src_snippet (source_of max_chunk_chars r)) results).
Proof.
  induction results as [|r results IH]; intros [snippets srcs].
  - simpl. rewrite app_nil_r. reflexivity.
  - cbn [fold_left map filter]. rewrite IH.
    unfold process_result, AnswerFacts.source_of, raw_text_of.
    cbv beta iota zeta. cbn [fst src_snippet].
    destruct (_summarize_snippet lower _ 3) as [|c l].
    + destruct (_clean_text _) as [|c l]; cbn [nonempty];
        [reflexivity | rewrite <- app_assoc; reflexivity].
    + cbn [nonempty]. rewrite <- app_assoc. reflexivity.
Qed.

Lemma answer_text query doc_embeddings metadata k max_chunk_chars :
  answer (answer_of query doc_embeddings metadata k max_chunk_chars) =
  match retrieve_top_k query doc_embeddings metadata k with
  | [] => NO_RESULT_ANSWER
  | _ =>
    INTRO ++ [LF; LF]
    ++ body_of (sources (answer_of query doc_embeddings metadata k
                                   max_chunk_chars))
    ++ [LF; LF] ++ DISCLAIMER
  end.
Proof.
  rewrite answer_sources.
  unfold answer_question_extractive, AnswerFacts.retained. cbv zeta.
  destruct (retrieve_top_k query doc_embeddings metadata k) as [|r rs];
    [reflexivity|].
  pose proof (process_results_snippets max_chunk_chars
                (_filter_results_by_topic lower (r :: rs) query) ([], []))
    as H.
  destruct (fold_left _ _ _) as [snippets srcs]. cbn [fst app] in H.
  cbn [answer]. unfold body_of. rewrite map_map, H, merge_nonempty_only.
  unfold INTRO, DISCLAIMER.
  destruct (_merge_snippets _ 900); reflexivity.
Qed.

Lemma body_length srcs : length (body_of srcs) <= 899.
Proof.
  unfold body_of.
  destruct (merge_length_below (map src_snippet srcs) 900) as [->|H].
  - vm_compute. lia.
  - destruct (_merge_snippets (map src_snippet srcs) 900);
      [vm_compute; lia | lia].
Qed.

(** X17: an answer has no source exactly when the retriever returned
    nothing, and it never has more sources than the retriever returned
    results. *)
Theorem answer_sources_count (query : str) (doc_embeddings : Embeddings)
        (metadata : Metadata) (k max_chunk_chars : Z) :
  let result := answer_of query doc_embeddings metadata k max_chunk_chars in
  (sources result = [] <->
   retrieve_top_k query doc_embeddings metadata k = []) /\
  length (sources result) <=
  length (retrieve_top_k query doc_embeddings metadata k).
Proof.
  cbv zeta. rewrite answer_sources. unfold AnswerFacts.retained.
  destruct (retrieve_top_k query doc_embeddings metadata k) as [|r rs];
    [split; [tauto | simpl; lia]|].
  rewrite length_map, TopicFacts.filter_results_by_topic_cases.
  destruct (_get_topic_keywords lower query) as [|kw kws];
    [split; [split; discriminate | lia]|].
  destruct (filter _ (r :: rs)) as [|m ms] eqn:E;
    [split; [split; discriminate | lia]|].
  split; [split; discriminate|].
  rewrite <- E. apply filter_length_le.
Qed.

(** X18: with no retrieved result the answer is the fixed "nothing found"
    text; otherwise it is the introduction, a blank line, the body, a
    blank line and the disclaimer, where the body is the merge under 900
    of the snippets of the sources shown, or the fixed "could not be
    reformulated" text when that merge is empty.  In both cases the
    answer has at most 1145 characters. *)
Theorem answer_text_shape (query : str) (doc_embeddings : Embeddings)
        (metadata : Metadata) (k max_chunk_chars : Z) :
  let result := answer_of query doc_embeddings metadata k max_chunk_chars in
  answer result =
  match retrieve_top_k query doc_embeddings metadata k with
  | [] => NO_RESULT_ANSWER
  | _ => INTRO ++ [LF; LF] ++ body_of (sources result)
         ++ [LF; LF] ++ DISCLAIMER
  end /\
  length (answer result) <= 1145 /\
  question result = query.
Proof.
  cbv zeta. split; [apply answer_text|]. split.
  - rewrite answer_text.
    destruct (retrieve_top_k query doc_embeddings metadata k);
      [vm_compute; lia|].
    rewrite !length_app.
    pose proof (body_length (sources (answer_of query doc_embeddings
                                        metadata k max_chunk_chars))) as H.
    assert (Hi : length INTRO = 81) by (vm_compute; reflexivity).
    assert (Hd : length DISCLAIMER = 161) by (vm_compute; reflexivity).
    rewrite Hi, Hd. simpl length. lia.
  - unfold answer_question_extractive. cbv zeta.
    destruct (retrieve_top_k query doc_embeddings metadata k);
      [reflexivity|].
    destruct (fold_left _ _ _). reflexivity.
Qed.

(** X19: the file name of every source of an answer is a base name: it
    holds no slash, and taking its base name again, as the page does
    before showing it, changes nothing. *)
Theorem answer_source_filenames (query : str) (doc_embeddings : Embeddings)
        (metadata : Metadata) (k max_chunk_chars : Z) :
  Forall (fun src =>
            ~ In SLASH (src_filename src) /\
            OsPath.basename (src_filename src) = src_filename src)
         (sources (answer_of query doc_embeddings metadata k
                             max_chunk_chars)).
Proof.
  rewrite answer_sources. apply Forall_forall. intros src Hsrc.
  apply in_map_iff in Hsrc as (r & <- & _).
  unfold AnswerFacts.source_of. cbv zeta. cbn [src_filename].
  split; [apply BuildFacts.basename_no_slash | apply BuildFacts.basename_idem].
Qed.

Lemma clean_summary text max_sentences :
  _clean_text (_summarize_snippet lower text max_sentences) =
  _summarize_snippet lower text max_sentences.
Proof.
  destruct (_filter_sentences lower (_split_sentences text)) as [|s l] eqn:E.
  - rewrite (proj2 (summarize_snippet_empty lower text max_sentences) E).
    reflexivity.
  - rewrite summarize_snippet_form by (rewrite E; discriminate).
    apply clean_summary_text, slice_to_Forall, survivors_Good.
Qed.

(** X20: every snippet of an answer is clean already: cleaning it again
    changes nothing, so it holds no carriage return, newline or denylisted
    character, no two spaces side by side and no white space at its
    ends. *)
Theorem answer_snippets_clean (query : str) (doc_embeddings : Embeddings)
        (metadata : Metadata) (k max_chunk_chars : Z) :
  Forall (fun src =>
            _clean_text (src_snippet src) = src_snippet src /\
            forallb (fun c => negb ((c =? CR) || (c =? LF) || denylisted c)%N)
                    (src_snippet src) = true /\
            single_spaced (src_snippet src) = true /\
            strip (src_snippet src) = src_snippet src)
         (sources (answer_of query doc_embeddings metadata k
                             max_chunk_chars)).
Proof.
  rewrite answer_sources. apply Forall_forall. intros src Hsrc.
  apply in_map_iff in Hsrc as (r & <- & _).
  assert (F : _clean_text (src_snippet (source_of max_chunk_chars r)) =
              src_snippet (source_of max_chunk_chars r)).
  { unfold AnswerFacts.source_of. cbv zeta. cbn [src_snippet].
    destruct (_summarize_snippet lower _ 3) as [|c l] eqn:E.
    - apply clean_text_twice.
    - rewrite <- E. apply clean_summary. }
  split; [exact F|]. rewrite <- F. split; [|split].
  - apply forallb_forall. intros c Hc.
    pose proof (clean_text_chars _ c Hc) as H. unfold to_space in H.
    destruct ((c =? CR) || (c =? LF) || denylisted c)%N eqn:Eb;
      [|reflexivity].
    subst c. vm_compute in Eb. discriminate.
  - apply clean_text_single_spaced.
  - apply clean_text_stripped.
Qed.

End Composer.

End AnswerShape.

(* ===================================================================== *)
(** ** app.py: one run of the page script *)
(* ===================================================================== *)

Module AppScript.
Import PyStr Pipeline App.

Section Script.

Variables Row Meta Score : Type.
Variable lower : str -> str.
Variable zero_score : Score.

(** The retriever gets what the session holds under ["embeddings"] and
    ["metadata"]. *)
Variable retrieve_top_k :
  str -> option (list Row) -> option (list Meta) -> Z ->
  list (QueryResult Score).

(** [st.session_state]: the keys the loader writes, and ["chat_history"],
    a list of dicts with the keys of an answer. *)
Record Session : Type := mkSession {
  core : SessionState Row Meta;
  chat_history : list (AnswerResult Score)
}.

(** The session when the page is first opened. *)
Definition new_session : Session :=
  {| core := initial_state; chat_history := [] |}.

(** One run of the script, as far as the session goes: the index is
    loaded when it is not ready; when it is ready and [st.chat_input]
    gives a question that is not empty, the question is answered with
    [k=3] and [max_chunk_chars=600] and the turn is appended to the
    history. *)
Definition rerun (fs : FileSystem Row Meta) (user_question : option str)
           (s : Session) : Session :=
  let session_state :=
    if negb (index_ready (core s))
    then snd (load_vector_store fs (core s))
    else core s in
  if negb (index_ready session_state)
  then {| core := session_state; chat_history := chat_history s |}
  else
    match user_question with
    | Some (c :: q) =>
      let result :=
        answer_question_extractive lower zero_score retrieve_top_k
          (c :: q) (embeddings session_state) (metadata session_state)
          3 600 in
      {| core := session_state;
         chat_history :=
           chat_history s ++
           [ {| question := c :: q;
                answer := answer result;
                sources := sources result |} ] |}
    | _ => {| core := session_state; chat_history := chat_history s |}
    end.

(** Runs of the script, each with the files as they are then and what the
    user typed. *)
Definition reruns (events : list (FileSystem Row Meta * option str))
           (s : Session) : Session :=
  fold_left (fun s e => rerun (fst e) (snd e) s) events s.

End Script.

Arguments mkSession {Row Meta Score} _ _.
Arguments core {Row Meta Score} _.
Arguments chat_history {Row Meta Score} _.
Arguments new_session {Row Meta Score}.
Arguments rerun {Row Meta Score} lower zero_score retrieve_top_k fs
  user_question s.
Arguments reruns {Row Meta Score} lower zero_score retrieve_top_k events s.

End AppScript.

Module AppScriptFacts.
Import PyStr Pipeline App AppScript.

Section Script.

Variables Row Meta Score : Type.
Variable lower : str -> str.
Variable zero_score : Score.
Variable retrieve_top_k :
  str -> option (list Row) -> option (list Meta) -> Z ->
  list (QueryResult Score).

Abbreviation rerun := (rerun lower zero_score retrieve_top_k).
Abbreviation reruns := (reruns lower zero_score retrieve_top_k).

Implicit Types (s : Session Row Meta Score).

Lemma rerun_core_ready fs q s :
  index_ready (core s) = true -> core (rerun fs q s) = core s.
Proof.
  intros H. unfold AppScript.rerun. cbv zeta. rewrite H. cbn [negb].
  rewrite H. cbn [negb]. destruct q as [[|c q]|]; reflexivity.
Qed.

Lemma rerun_core fs q s :
  core (rerun fs q s) =
  if index_ready (core s) then core s
  else snd (load_vector_store fs (core s)).
Proof.
  destruct (index_ready (core s)) eqn:H; [apply rerun_core_ready, H|].
  unfold AppScript.rerun. cbv zeta. rewrite H. cbn [negb].
  destruct (negb (index_ready _)); [reflexivity|].
  destruct q as [[|c q]|]; reflexivity.
Qed.

Lemma reruns_core_stable
      (events : list (FileSystem Row Meta * option str)) s :
  index_ready (core s) = true -> core (reruns events s) = core s.
Proof.
  revert s. induction events as [|e events IH]; intros s Hready;
    [reflexivity|].
  unfold AppScript.reruns in *. cbn [fold_left].
  rewrite IH; rewrite rerun_core_ready by exact Hready;
    [reflexivity | exact Hready].
Qed.

(** X21: the index is loaded once: from a session whose index is ready,
    no run of the script changes the vectors, the metadata or the ready
    flag, and none reports a loading error, whatever the files have
    become and whatever is asked. *)
Theorem reruns_keep_loaded_index
        (events : list (FileSystem Row Meta * option str)) s
        (Hready : index_ready (core s) = true) :
  embeddings (core (reruns events s)) = embeddings (core s) /\
  metadata (core (reruns events s)) = metadata (core s) /\
  index_ready (core (reruns events s)) = true /\
  errors (core (reruns events s)) = errors (core s).
Proof.
  rewrite reruns_core_stable by exact Hready. auto.
Qed.

Lemma load_ready fs (st : SessionState Row Meta) :
  index_ready (snd (load_vector_store fs st)) = true ->
  index_ready st = true \/
  exists emb meta,
    EMB_PATH fs = Loads emb /\ META_PATH fs = Loads meta /\
    embeddings (snd (load_vector_store fs st)) = Some emb /\
    metadata (snd (load_vector_store fs st)) = Some meta.
Proof.
  unfold load_vector_store, try_load.
  destruct (EMB_PATH fs) as [|e|emb], (META_PATH fs) as [|e'|meta];
    cbn [exists_ negb orb snd st_error index_ready]; auto.
  intros _. right. exists emb, meta. repeat split.
Qed.


Lemma rerun_history fs q s :
  chat_history (rerun fs q s) = chat_history s \/
  exists turn,
    chat_history (rerun fs q s) = chat_history s ++ [turn] /\
    question turn <> [] /\ q = Some (question turn) /\
    index_ready (core (rerun fs q s)) = true.
Proof.
  unfold AppScript.rerun. cbv zeta.
  destruct (negb (index_ready _)) eqn:E; [left; reflexivity|].
  destruct q as [[|c q]|]; [left; reflexivity | | left; reflexivity].
  right. eexists. split; [reflexivity|]. cbn [question core].
  split; [discriminate|]. split; [reflexivity|].
  apply negb_false_iff in E. exact E.
Qed.

(** X23: the chat history only grows, by at most one turn per run of the
    script; every turn added has a question that is not empty and that
    the user typed, and none is added while the index is not ready. *)
Theorem reruns_history_grows
        (events : list (FileSystem Row Meta * option str)) s :
  exists new,
    chat_history (reruns events s) = chat_history s ++ new /\
    length new <= length events /\
    Forall (fun turn => question turn <> [] /\
                        In (Some (question turn)) (map snd events)) new /\
    (index_ready (core (reruns events s)) = false -> new = []).
Proof.
  revert s. induction events as [|[fs q] events IH]; intros s.
  - exists []. cbn. rewrite app_nil_r. repeat split; auto.
  - unfold AppScript.reruns in *. cbn [fold_left fst snd map length].
    destruct (IH (rerun fs q s)) as (new & Hh & Hl & Hq & Hn).
    destruct (rerun_history fs q s) as [E|(turn & E & Hne & Hin & Hr)].
    + exists new. rewrite Hh, E. split; [reflexivity|].
      split; [lia|]. split; [|exact Hn].
      revert Hq. apply Forall_impl. intros t [H1 H2]. split; [exact H1|].
      right. exact H2.
    + exists (turn :: new). rewrite Hh, E, <- app_assoc.
      split; [reflexivity|]. split; [simpl; lia|]. split.
      * constructor; [split; [exact Hne | left; exact Hin]|].
        revert Hq. apply Forall_impl. intros t [H1 H2]. split; [exact H1|].
        right. exact H2.
      * intros Hf. exfalso.
        pose proof (reruns_core_stable events (rerun fs q s) Hr) as K.
        unfold AppScript.reruns in K. cbn [fst snd] in Hf.
        rewrite K in Hf. congruence.
Qed.

End Script.

(** A session whose index was loaded from two rows and two records. *)
Definition loaded_session : Session nat nat unit :=
  {| core := {| embeddings := Some [1; 2]; metadata := Some [3; 4];
                index_ready := true; errors := [] |};
     chat_history := [] |}.

Definition no_result (q : str) (e : option (list nat)) (m : option (list nat))
           (k : Z) : list (QueryResult unit) := [].

Lemma reruns_keep_loaded_index_witness :
  index_ready (core loaded_session) = true /\
  embeddings
    (core (AppScript.reruns Latin1.lower tt no_result
             [({| EMB_PATH := Missing; META_PATH := Loads [9] |},
               Some (lit "otite ?"))]
             loaded_session))
  = Some [1; 2].
Proof.
  split; [reflexivity|].
  apply (reruns_keep_loaded_index nat nat unit Latin1.lower tt no_result).
  reflexivity.
Defined.


End AppScriptFacts.

(* ===================================================================== *)
(** ** More on the build: what the clean-up leaves alone *)
(* ===================================================================== *)

Module BuildShape.
Import PyStr Build BuildFacts.

Section CleanFilenames.

Variable Chunk : Type.

Lemma clean_one_rest (h : Store Chunk) a b :
  rest (clean_one h a b) = rest (h b).
Proof.
  unfold clean_one. destruct (filename (h a)) as [[|c f]|]; try reflexivity.
  unfold store_set. destruct (Nat.eqb b a) eqn:E; [|reflexivity].
  apply Nat.eqb_eq in E. subst b. reflexivity.
Qed.

Lemma clean_filenames_rest metadata :
  forall (h : Store Chunk) b,
    rest (clean_filenames h metadata b) = rest (h b).
Proof.
  unfold clean_filenames.
  induction metadata as [|a l IH]; intros h b; [reflexivity|].
  cbn [fold_left]. rewrite IH. apply clean_one_rest.
Qed.

Lemma record_eq (m m' : MetaRecord Chunk) :
  filename m = filename m' -> rest m = rest m' -> m = m'.
Proof. destruct m, m'. cbn. intros -> ->. reflexivity. Qed.

(** X24: the clean-up touches file names only: every record keeps its
    other values, a record that is not in the list is left as it was,
    and as many records are written as the list holds, in its order. *)
Theorem clean_filenames_frame (h : Store Chunk) (metadata : list addr) :
  (forall a, rest (clean_filenames h metadata a) = rest (h a)) /\
  (forall a, ~ In a metadata -> clean_filenames h metadata a = h a) /\
  length (main_step5 h metadata) = length metadata /\
  map rest (main_step5 h metadata) = map (fun a => rest (h a)) metadata.
Proof.
  split; [intros a; apply clean_filenames_rest|]. split; [|split].
  - intros a Ha. apply record_eq; [|apply clean_filenames_rest].
    rewrite clean_filenames_filename.
    destruct (existsb (Nat.eqb a) metadata) eqn:E; [|reflexivity].
    apply existsb_exists in E as (b & Hb & Eb).
    apply Nat.eqb_eq in Eb. subst b. contradiction.
  - unfold main_step5, persisted. apply length_map.
  - unfold main_step5, persisted. rewrite map_map. apply map_ext.
    intros a. apply clean_filenames_rest.
Qed.

(** X25: the clean-up is idempotent: run on a store it has cleaned
    already, it changes no record, so the same records are written. *)
Theorem clean_filenames_idempotent (h : Store Chunk) (metadata : list addr) :
  (forall a, clean_filenames (clean_filenames h metadata) metadata a
             = clean_filenames h metadata a) /\
  main_step5 (clean_filenames h metadata) metadata = main_step5 h metadata.
Proof.
  assert (H : forall a,
             clean_filenames (clean_filenames h metadata) metadata a
             = clean_filenames h metadata a).
  { intros a. apply record_eq; [|apply clean_filenames_rest].
    rewrite !clean_filenames_filename.
    destruct (existsb (Nat.eqb a) metadata); [|reflexivity].
    destruct (filename (h a)) as [f|]; [|reflexivity].
    cbn [option_map]. rewrite basename_idem. reflexivity. }
  split; [exact H|]. unfold main_step5, persisted.
  apply map_ext. exact H.
Qed.

End CleanFilenames.

End BuildShape.

(* ===================================================================== *)
(** ** More on cleaning: when [_clean_text] gives nothing *)
(* ===================================================================== *)

Module CleanShape.
Import PyStr PyStrFacts Pipeline CleanFacts.

Lemma lstrip_nil s : lstrip s = [] <-> forallb isspace s = true.
Proof.
  induction s as [|c s IH]; [simpl; tauto|]. cbn [lstrip forallb].
  destruct (isspace c); cbn [andb]; [exact IH|].
  split; discriminate.
Qed.

Lemma rstrip_nil s : rstrip s = [] <-> forallb isspace s = true.
Proof.
  induction s as [|c s IH]; [simpl; tauto|]. rewrite rstrip_cons.
  cbn [forallb]. destruct (rstrip s) as [|b r].
  - destruct IH as [IH _]. rewrite (IH eq_refl), andb_true_r.
    destruct (isspace c); [tauto | split; discriminate].
  - split; [discriminate|]. intros H. apply andb_true_iff in H as [_ H].
    apply IH in H. discriminate.
Qed.

Lemma strip_nil s : strip s = [] <-> forallb isspace s = true.
Proof.
  unfold strip. rewrite rstrip_nil. split.
  - intros H. apply lstrip_nil.
    destruct (lstrip s) as [|c t] eqn:E; [reflexivity|].
    cbn [forallb] in H. rewrite (lstrip_head _ _ _ E) in H. discriminate.
  - intros H. apply lstrip_nil in H. rewrite H. reflexivity.
Qed.

Lemma squeeze_spaces s : forallb isspace (squeeze s) = forallb isspace s.
Proof.
  induction s as [|c s IH]; [reflexivity|]. rewrite squeeze_cons.
  destruct ((c =? SP)%N && head_is_space s) eqn:E.
  - apply andb_true_iff in E as [E _]. apply N.eqb_eq in E. subst c.
    cbn [forallb]. change (isspace SP) with true. exact IH.
  - cbn [forallb]. rewrite IH. reflexivity.
Qed.

Lemma squeeze_length s : length (squeeze s) <= length s.
Proof.
  induction s as [|c s IH]; [simpl; lia|]. rewrite squeeze_cons.
  destruct ((c =? SP)%N && head_is_space s); simpl; lia.
Qed.

Lemma rstrip_length s : length (rstrip s) <= length s.
Proof.
  induction s as [|c s IH]; [simpl; lia|]. rewrite rstrip_cons.
  destruct (rstrip s); [destruct (isspace c)|]; simpl in *; lia.
Qed.

(** X26: cleaning never makes a text longer, and it gives the empty
    string exactly when the text holds nothing but white space and
    denylisted characters. *)
Theorem clean_text_empty (text : str) :
  length (_clean_text text) <= length text /\
  (_clean_text text = [] <->
   forallb (fun c => isspace c || denylisted c) text = true).
Proof.
  rewrite clean_text_one_pass. split.
  - unfold strip.
    pose proof (rstrip_length (lstrip (squeeze (map to_space text)))).
    pose proof (lstrip_length (squeeze (map to_space text))).
    pose proof (squeeze_length (map to_space text)).
    rewrite length_map in *. lia.
  - rewrite strip_nil, squeeze_spaces.
    replace (forallb isspace (map to_space text))
      with (forallb (fun c => isspace c || denylisted c) text); [tauto|].
    induction text as [|c text IH]; [reflexivity|].
    cbn [map forallb]. rewrite IH. f_equal. unfold to_space.
    destruct (denylisted c) eqn:Ed.
    + rewrite !orb_true_r. reflexivity.
    + rewrite !orb_false_r.
      destruct (c =? CR)%N eqn:E1;
        [apply N.eqb_eq in E1; subst c; reflexivity|].
      destruct (c =? LF)%N eqn:E2;
        [apply N.eqb_eq in E2; subst c; reflexivity|].
      reflexivity.
Qed.

End CleanShape.
